(** * djlibgo: the Traktor collection reader (package [traktor])

    A shallow embedding of [traktor/collection.go] and of the lazy loader
    that sits in front of it, together with the properties of the
    primary-key builder, the file-path reconstruction, the playlist tree
    walk, the collection index and the process-wide cache.

    Conventions of the embedding:
    - a Go [string] is a sequence of bytes: Rocq's [string];
    - a Go [int] is an integer [Z], a [float64] a binary64 float; both are
      only ever copied by the code under study;
    - a slice is a [list]; a nil slice and an empty slice are both [[]]
      (the code only ranges over slices and takes their length);
    - a pointer that may be nil is an [option]; a [*Track] points into the
      backing array of [TraktorCollection.Tracks] and is its index there,
      a [*Playlist] is an index into [TraktorCollection.Playlists];
    - a Go map is a [gmap];
    - the file system and the XML decoder are an explicit [World];
    - the package variables [tc] and [tcLoaded] are an explicit state that
      every loader function takes and returns. *)

From Stdlib Require Import ZArith Ascii String DecimalString.
From Stdlib Require DecimalPos DecimalZ.
From Stdlib Require Import Floats.PrimFloat Floats.SpecFloat Floats.FloatOps Floats.FloatAxioms.
From stdpp Require Import gmap strings list sorting.

Local Open Scope string_scope.
Local Open Scope list_scope.
#[local] Set Warnings "-register-all".

(** ** Go strings *)

Module strings.

(** [strings.HasPrefix] *)
Fixpoint HasPrefix (s prefix : string) {struct prefix} : bool :=
  match prefix, s with
  | EmptyString, _ => true
  | String _ _, EmptyString => false
  | String a prefix', String b s' => Ascii.eqb a b && HasPrefix s' prefix'
  end.

(** [s[n:]] *)
Fixpoint drop (n : nat) (s : string) : string :=
  match n, s with
  | O, _ => s
  | S _, EmptyString => EmptyString
  | S n', String _ s' => drop n' s'
  end.

(** [strings.TrimPrefix]: one leading copy of [prefix] is removed. *)
Definition TrimPrefix (s prefix : string) : string :=
  if HasPrefix s prefix then drop (String.length prefix) s else s.

(** The replacement loop of [strings.Replace] for a non-empty [old] and
    [n < 0]: the occurrences of [old] are found from left to right and do
    not overlap. [skip] counts the bytes of the occurrence just replaced
    that are still to be passed over. *)
Fixpoint replaceFrom (skip : nat) (s old new : string) : string :=
  match s with
  | EmptyString => EmptyString
  | String c s' =>
      match skip with
      | S k => replaceFrom k s' old new
      | O =>
          if HasPrefix s old
          then new +:+ replaceFrom (String.length old - 1) s' old new
          else String c (replaceFrom 0 s' old new)
      end
  end.

(** [strings.ReplaceAll]. The program only calls it with the two-byte
    [old] ["/:"]; the rune-wise insertion that Go performs for an empty
    [old] is outside this model, which leaves [s] as it is there. *)
Definition ReplaceAll (s old new : string) : string :=
  if String.eqb old new then s
  else match old with
       | EmptyString => s
       | String _ _ => replaceFrom 0 s old new
       end.

(** [strings.Join] *)
Fixpoint Join (elems : list string) (sep : string) : string :=
  match elems with
  | [] => EmptyString
  | [e] => e
  | e :: rest => e +:+ sep +:+ Join rest sep
  end.

End strings.

(** ** [os] and [path/filepath], Unix build *)

Module os.

(** [os.PathSeparator] *)
Definition PathSeparator : ascii := "/"%char.

Definition IsPathSeparator (c : ascii) : bool := Ascii.eqb c PathSeparator.

End os.

Module filepath.

Definition Separator : ascii := os.PathSeparator.

Definition isDot (c : ascii) : bool := Ascii.eqb c "."%char.

(** [for out.w > dotdot && !os.IsPathSeparator(out.index(out.w)) { out.w-- }]:
    the value of [out.w] when the loop ends. *)
Fixpoint backtrack (buf : string) (dotdot w : nat) : nat :=
  match w with
  | O => O
  | S w' =>
      if (dotdot <? w)%nat
         && negb (match String.get w buf with
                  | Some c => os.IsPathSeparator c
                  | None => false
                  end)
      then backtrack buf dotdot w'
      else w
  end.

(** The bytes of a path element: up to the next separator. *)
Fixpoint element (path : string) : string * string :=
  match path with
  | EmptyString => (EmptyString, EmptyString)
  | String c rest =>
      if os.IsPathSeparator c then (EmptyString, path)
      else let '(e, rest') := element rest in (String c e, rest')
  end.

(** Is the string empty or does it start with a separator? This is the
    test [r+k == n || os.IsPathSeparator(path[r+k])] on [path[r+k:]]. *)
Definition atElementEnd (path : string) : bool :=
  match path with
  | EmptyString => true
  | String c _ => os.IsPathSeparator c
  end.

(** The main loop of [filepath.Clean]. [path] is the unread part
    [path[r:]], [out] the bytes written so far ([out.w] is its length).
    Every iteration reads at least one byte, so [fuel = len(path)] is
    enough. *)
Fixpoint cleanLoop (fuel : nat) (rooted : bool) (path : string)
    (dotdot : nat) (out : string) : string :=
  match fuel with
  | O => out
  | S fuel' =>
      match path with
      | EmptyString => out
      | String c rest =>
          if os.IsPathSeparator c then
            (* empty path element *)
            cleanLoop fuel' rooted rest dotdot out
          else if isDot c && atElementEnd rest then
            (* . element *)
            cleanLoop fuel' rooted rest dotdot out
          else if isDot c && strings.HasPrefix rest "." && atElementEnd (strings.drop 1 rest) then
            (* .. element: remove to last separator *)
            let rest2 := strings.drop 1 rest in
            if (dotdot <? String.length out)%nat then
              let w := backtrack out dotdot (String.length out - 1) in
              cleanLoop fuel' rooted rest2 dotdot (String.substring 0 w out)
            else if negb rooted then
              let out1 := if (0 <? String.length out)%nat
                          then out +:+ String Separator EmptyString else out in
              let out2 := out1 +:+ ".." in
              cleanLoop fuel' rooted rest2 (String.length out2) out2
            else cleanLoop fuel' rooted rest2 dotdot out
          else
            (* real path element: add slash if needed, copy element *)
            let out1 :=
              if (rooted && negb (String.length out =? 1)%nat)
                 || (negb rooted && negb (String.length out =? 0)%nat)
              then out +:+ String Separator EmptyString else out in
            let '(e, rest') := element path in
            cleanLoop fuel' rooted rest' dotdot (out1 +:+ e)
      end
  end.

(** [filepath.Clean] (no volume names on Unix, [FromSlash] is the
    identity). *)
Definition Clean (path : string) : string :=
  match path with
  | EmptyString => "."
  | String c rest =>
      let rooted := os.IsPathSeparator c in
      let out :=
        if rooted
        then cleanLoop (String.length path) true rest 1 (String Separator EmptyString)
        else cleanLoop (String.length path) false path 0 EmptyString in
      match out with
      | EmptyString => "."
      | _ => out
      end
  end.

(** [filepath.Join]: leading empty elements are dropped, the rest is
    joined with the separator and cleaned. *)
Fixpoint Join (elem : list string) : string :=
  match elem with
  | [] => EmptyString
  | e :: rest =>
      if String.eqb e EmptyString then Join rest
      else Clean (strings.Join elem (String Separator EmptyString))
  end.

End filepath.

(** ** The document model ([encoding/xml] targets) *)

Definition float64 := PrimFloat.float.

Module Location.
Record t := mk
  { Dir : string; File : string; Volume : string; VolumeID : string }.
End Location.

Module Album.
Record t := mk { Title : string; Track : Z; OfTracks : Z }.
End Album.

Module Info.
Record t := mk
  { Bitrate : Z; Genre : string; Label : string; Comment : string;
    Comment2 : string; CoverArtID : string; Key : string; PlayCount : Z;
    PlayTime : Z; PlayTimeFloat : float64; ImportDate : string;
    LastPlayed : string; Ranking : Z; ReleaseDate : string;
    Remixer : string; Producer : string; Mix : string; FileSize : Z;
    Flags : Z }.
End Info.

Module Tempo.
Record t := mk { Bpm : float64; BpmQuality : float64 }.
End Tempo.

Module Loudness.
Record t := mk
  { PeakDb : float64; PerceivedDb : float64; AnalyzedDb : float64 }.
End Loudness.

Module MusicalKey.
Record t := mk { Value : Z }.
End MusicalKey.

Module CuePoint.
Record t := mk
  { Name : string; Type_ : Z; Start : float64; Len : float64;
    Repeats : Z; HotCue : Z }.
End CuePoint.

Module LoopInfo.
Record t := mk { LoopStart : float64; LoopEnd : float64 }.
End LoopInfo.

Module Entry.
Record t := mk
  { Artist : string; Title : string; AudioID : string;
    ModifiedDate : string; ModifiedTime : string;
    Location : Location.t; Album : Album.t; Info : Info.t;
    Tempo : Tempo.t; Loudness : Loudness.t; MusicalKey : MusicalKey.t;
    CuePoints : list CuePoint.t; LoopInfo : LoopInfo.t;
    PrimaryKey : string }.
End Entry.

Module Collection.
Record t := mk { Entries : Z; Tracks : list Entry.t }.
End Collection.

Module PrimaryKey.
Record t := mk { Type_ : string; Key : string }.
End PrimaryKey.

Module PlaylistItem.
Record t := mk { PrimaryKey : PrimaryKey.t }.
End PlaylistItem.

Module PlaylistData.
Record t := mk
  { Entries : Z; Type_ : string; UUID : string;
    Items : list PlaylistItem.t }.
End PlaylistData.

(** A node of the playlist tree. [Playlist] is a [*PlaylistData]: [None]
    is the nil pointer of a node without a PLAYLIST element. *)
Module Node.
Inductive t : Type := mk
  { Type_ : string; Name : string; Count : Z; Subnodes : list t;
    Playlist : option PlaylistData.t }.
End Node.

Module Playlists.
Record t := mk { Node : Node.t }.
End Playlists.

Module NML.
Record t := mk
  { Version : string; Collection : Collection.t; Playlists : Playlists.t }.
End NML.

(** ** The simplified records handed to callers *)

Module Track.
Record t := mk
  { Artist : string; Title : string; Album : string; Genre : string;
    Label : string; Comment : string; Remixer : string; Producer : string;
    BPM : float64; Key : string; MusicalKey : Z; Rating : Z;
    PlayCount : Z; Duration : float64; Bitrate : Z; FileSize : Z;
    FilePath : string; FileName : string; Volume : string;
    ImportDate : string; LastPlayed : string; ReleaseDate : string;
    PeakDb : float64; PerceivedDb : float64; CuePoints : list CuePoint.t;
    PrimaryKey : string }.
End Track.

(** A [*Track]: the index of the track in [TraktorCollection.Tracks]. *)
Definition TrackPtr := nat.

Module Playlist.
Record t := mk
  { Name : string; Path : string; TrackKeys : list string;
    Tracks : list TrackPtr }.
End Playlist.

(** A [*Playlist]: the index of the playlist in
    [TraktorCollection.Playlists]. *)
Definition PlaylistPtr := nat.

Module TraktorCollection.
Record t := mk
  { Version : string; Tracks : list Track.t; Playlists : list Playlist.t;
    trackMap : gmap string TrackPtr }.
End TraktorCollection.

(** ** Track normalisation *)

(** [buildPrimaryKey] *)
Definition buildPrimaryKey (loc : Location.t) : string :=
  Location.Volume loc +:+ Location.Dir loc +:+ Location.File loc.

(** [buildFilePath] *)
Definition buildFilePath (loc : Location.t) : string :=
  let sep := String os.PathSeparator EmptyString in
  let dir := strings.ReplaceAll (Location.Dir loc) "/:" sep in
  let dir := strings.TrimPrefix dir sep in
  if negb (String.eqb (Location.Volume loc) "") then
    if String.eqb (Location.Volume loc) "Macintosh HD"
       || String.eqb (Location.Volume loc) ":"
    then filepath.Join ["/"; dir; Location.File loc]
    else filepath.Join ["/Volumes"; Location.Volume loc; dir; Location.File loc]
  else filepath.Join [dir; Location.File loc].

(** [convertEntryToTrack] *)
Definition convertEntryToTrack (entry : Entry.t) : Track.t :=
  let primaryKey := buildPrimaryKey (Entry.Location entry) in
  let filePath := buildFilePath (Entry.Location entry) in
  {| Track.Artist := Entry.Artist entry;
     Track.Title := Entry.Title entry;
     Track.Album := Album.Title (Entry.Album entry);
     Track.Genre := Info.Genre (Entry.Info entry);
     Track.Label := Info.Label (Entry.Info entry);
     Track.Comment := Info.Comment (Entry.Info entry);
     Track.Remixer := Info.Remixer (Entry.Info entry);
     Track.Producer := Info.Producer (Entry.Info entry);
     Track.BPM := Tempo.Bpm (Entry.Tempo entry);
     Track.Key := Info.Key (Entry.Info entry);
     Track.MusicalKey := MusicalKey.Value (Entry.MusicalKey entry);
     Track.Rating := Info.Ranking (Entry.Info entry);
     Track.PlayCount := Info.PlayCount (Entry.Info entry);
     Track.Duration := Info.PlayTimeFloat (Entry.Info entry);
     Track.Bitrate := Info.Bitrate (Entry.Info entry);
     Track.FileSize := Info.FileSize (Entry.Info entry);
     Track.FilePath := filePath;
     Track.FileName := Location.File (Entry.Location entry);
     Track.Volume := Location.Volume (Entry.Location entry);
     Track.ImportDate := Info.ImportDate (Entry.Info entry);
     Track.LastPlayed := Info.LastPlayed (Entry.Info entry);
     Track.ReleaseDate := Info.ReleaseDate (Entry.Info entry);
     Track.PeakDb := Loudness.PeakDb (Entry.Loudness entry);
     Track.PerceivedDb := Loudness.PerceivedDb (Entry.Loudness entry);
     Track.CuePoints := Entry.CuePoints entry;
     Track.PrimaryKey := primaryKey |}.

(** ** The playlist tree walk *)

(** The path of a node below [parentPath]: the first statements of
    [extractPlaylists], which compute its local [currentPath]. *)
Definition currentPath (parentPath name : string) : string :=
  if negb (String.eqb name "") && negb (String.eqb name "$ROOT") then
    if String.eqb parentPath "" then name
    else parentPath +:+ "/" +:+ name
  else parentPath.

(** The loop over [node.Playlist.Items]: every key is appended to
    [TrackKeys], and the track pointer to [Tracks] when the map has the
    key. The accumulator is the playlist under construction. *)
Fixpoint collectItems (items : list PlaylistItem.t)
    (trackMap : gmap string TrackPtr) (playlist : Playlist.t) : Playlist.t :=
  match items with
  | [] => playlist
  | item :: rest =>
      let key := PrimaryKey.Key (PlaylistItem.PrimaryKey item) in
      let playlist :=
        {| Playlist.Name := Playlist.Name playlist;
           Playlist.Path := Playlist.Path playlist;
           Playlist.TrackKeys := Playlist.TrackKeys playlist ++ [key];
           Playlist.Tracks := Playlist.Tracks playlist |} in
      let playlist :=
        match trackMap !! key with
        | Some track =>
            {| Playlist.Name := Playlist.Name playlist;
               Playlist.Path := Playlist.Path playlist;
               Playlist.TrackKeys := Playlist.TrackKeys playlist;
               Playlist.Tracks := Playlist.Tracks playlist ++ [track] |}
        | None => playlist
        end in
      collectItems rest trackMap playlist
  end.

(** The playlist a node contributes itself: the body of
    [if node.Type == "PLAYLIST" && node.Playlist != nil]. *)
Definition ownPlaylists (type_ name : string) (playlist : option PlaylistData.t)
    (path : string) (trackMap : gmap string TrackPtr) : list Playlist.t :=
  match playlist with
  | Some data =>
      if String.eqb type_ "PLAYLIST" then
        [collectItems (PlaylistData.Items data) trackMap
           {| Playlist.Name := name; Playlist.Path := path;
              Playlist.TrackKeys := []; Playlist.Tracks := [] |}]
      else []
  | None => []
  end.

(** [extractPlaylists] *)
Fixpoint extractPlaylists (node : Node.t) (parentPath : string)
    (trackMap : gmap string TrackPtr) : list Playlist.t :=
  let path := currentPath parentPath (Node.Name node) in
  let playlists :=
    ownPlaylists (Node.Type_ node) (Node.Name node) (Node.Playlist node)
      path trackMap in
  let subPlaylists :=
    (fix subnodes (l : list Node.t) : list Playlist.t :=
       match l with
       | [] => []
       | subnode :: rest => extractPlaylists subnode path trackMap ++ subnodes rest
       end) (Node.Subnodes node) in
  playlists ++ subPlaylists.

(** ** The collection index *)

(** [(c *TraktorCollection) GetTrackByKey]: a Go map yields the zero
    value, here the nil pointer, for a key it does not hold. *)
Definition GetTrackByKey (c : TraktorCollection.t) (key : string) : option TrackPtr :=
  TraktorCollection.trackMap c !! key.

(** What a [*Track] of collection [c] points to. *)
Definition derefTrack (c : TraktorCollection.t) (p : TrackPtr) : option Track.t :=
  TraktorCollection.Tracks c !! p.

(** The loop [for i := range c.Playlists] of [GetPlaylistByName], about
    to look at index [i], with [playlists = c.Playlists[i:]]. *)
Fixpoint findPlaylistByName (playlists : list Playlist.t) (i : nat)
    (name : string) : option PlaylistPtr :=
  match playlists with
  | [] => None
  | p :: rest =>
      if String.eqb (Playlist.Name p) name then Some i
      else findPlaylistByName rest (S i) name
  end.

(** [(c *TraktorCollection) GetPlaylistByName] on a receiver that is not
    nil. *)
Definition GetPlaylistByName (c : TraktorCollection.t) (name : string) : option PlaylistPtr :=
  findPlaylistByName (TraktorCollection.Playlists c) 0 name.

(** What a [*Playlist] of collection [c] points to. *)
Definition derefPlaylist (c : TraktorCollection.t) (p : PlaylistPtr) : option Playlist.t :=
  TraktorCollection.Playlists c !! p.

(** ** Parsing *)

Inductive error : Type :=
  | ErrNotExist                 (* os.ErrNotExist *)
  | PathError (path : string)   (* os.Open failed *)
  | DecodeError.                (* xml.Decoder.Decode failed *)

(** What the program sees of its environment: the home directory (or the
    failure of [os.UserHomeDir]), whether [os.Stat] succeeds on a path,
    the bytes [os.Open] gives access to, and what [encoding/xml] decodes
    them to. *)
Record World := mkWorld
  { UserHomeDir : option string;
    Stat : string → bool;
    Open : string → option string;
    Decode : string → option NML.t }.

Definition versions : list string := ["Traktor 4.4.1"; "Traktor 4.4.0"].

(** The loop over [versions] in [collectionLocation]. *)
Fixpoint firstExisting (w : World) (homeDir : string) (vs : list string) : string :=
  match vs with
  | [] => ""
  | version :: rest =>
      let path :=
        filepath.Join
          [homeDir; "Documents"; "Native Instruments"; version; "collection.nml"] in
      if Stat w path then path else firstExisting w homeDir rest
  end.

(** [collectionLocation] *)
Definition collectionLocation (w : World) : string :=
  match UserHomeDir w with
  | None => ""
  | Some homeDir => firstExisting w homeDir versions
  end.

(** [IsAvailable] *)
Definition IsAvailable (w : World) : bool :=
  negb (String.eqb (collectionLocation w) "").

(** One iteration of the loop over [nml.Collection.Tracks]: the track is
    appended and the map entry of its key is set to the address of the
    slot just filled, [&collection.Tracks[len(collection.Tracks)-1]]. The
    slice was made with the capacity of the whole entry list, so [append]
    never moves it and the addresses taken earlier stay valid. *)
Definition addEntry (collection : TraktorCollection.t) (entry : Entry.t)
    : TraktorCollection.t :=
  let track := convertEntryToTrack entry in
  let tracks := TraktorCollection.Tracks collection ++ [track] in
  {| TraktorCollection.Version := TraktorCollection.Version collection;
     TraktorCollection.Tracks := tracks;
     TraktorCollection.Playlists := TraktorCollection.Playlists collection;
     TraktorCollection.trackMap :=
       <[Track.PrimaryKey track := (length tracks - 1)%nat]>
         (TraktorCollection.trackMap collection) |}.

(** The part of [ParseCollectionFromPath] after a successful decode. *)
Definition buildCollection (nml : NML.t) : TraktorCollection.t :=
  let collection :=
    {| TraktorCollection.Version := NML.Version nml;
       TraktorCollection.Tracks := [];
       TraktorCollection.Playlists := [];
       TraktorCollection.trackMap := ∅ |} in
  let collection :=
    fold_left addEntry (Collection.Tracks (NML.Collection nml)) collection in
  {| TraktorCollection.Version := TraktorCollection.Version collection;
     TraktorCollection.Tracks := TraktorCollection.Tracks collection;
     TraktorCollection.Playlists :=
       extractPlaylists (Playlists.Node (NML.Playlists nml)) ""
         (TraktorCollection.trackMap collection);
     TraktorCollection.trackMap := TraktorCollection.trackMap collection |}.

(** [ParseCollectionFromPath]: the two results of the Go function, the
    pointer (nil when it fails) and the error (nil when it succeeds). *)
Definition ParseCollectionFromPath (w : World) (path : string)
    : option TraktorCollection.t * option error :=
  match Open w path with
  | None => (None, Some (PathError path))
  | Some file =>
      match Decode w file with
      | None => (None, Some DecodeError)
      | Some nml => (Some (buildCollection nml), None)
      end
  end.

(** [ParseCollection] *)
Definition ParseCollection (w : World)
    : option TraktorCollection.t * option error :=
  let location := collectionLocation w in
  if String.eqb location "" then (None, Some ErrNotExist)
  else ParseCollectionFromPath w location.

(** ** The lazy loader *)

(** The package variables [tc] and [tcLoaded]. [parses] is not a program
    variable: it counts the calls of [ParseCollection] made so far. *)
Record Globals := mkGlobals
  { tc : option TraktorCollection.t;
    tcLoaded : bool;
    parses : nat }.

(** The state in which the process starts. *)
Definition initial : Globals :=
  {| tc := None; tcLoaded := false; parses := 0 |}.

(** How a call ends: it returns, or it panics with a nil pointer
    dereference (reading a field through a nil [*TraktorCollection]). *)
Inductive outcome (A : Type) : Type :=
  | Returns (a : A)
  | NilDereference.
Arguments Returns {A} a.
Arguments NilDereference {A}.

(** The statement the three loader functions start with:
    [if !tcLoaded { tc, _ = ParseCollection(); tcLoaded = true }]. *)
Definition loadOnce (w : World) (g : Globals) : Globals :=
  if negb (tcLoaded g) then
    {| tc := fst (ParseCollection w); tcLoaded := true; parses := S (parses g) |}
  else g.

(** [GetPlaylists]: [return tc.Playlists]. *)
Definition GetPlaylists (w : World) (g : Globals)
    : outcome (list Playlist.t) * Globals :=
  let g := loadOnce w g in
  match tc g with
  | None => (NilDereference, g)
  | Some c => (Returns (TraktorCollection.Playlists c), g)
  end.

(** [GetSortedPlaylistNames]. [sort.Strings] puts the names in bytewise
    lexicographic order, which is [String.le]. *)
Definition GetSortedPlaylistNames (w : World) (g : Globals)
    : outcome (list string) * Globals :=
  match GetPlaylists w g with
  | (NilDereference, g) => (NilDereference, g)
  | (Returns pl, g) => (Returns (merge_sort String.le (map Playlist.Name pl)), g)
  end.

(** The [%d] verb of [fmt.Printf] on the length of a slice. *)
Definition formatLen {A : Type} (l : list A) : string :=
  NilEmpty.string_of_uint (Nat.to_uint (length l)).

(** [LoadCollection]: what it prints. *)
Definition LoadCollection (w : World) (g : Globals) : outcome string * Globals :=
  let g := loadOnce w g in
  match tc g with
  | None => (NilDereference, g)
  | Some c =>
      (Returns ("Traktor collection loaded. Number of playlists: "
                +:+ formatLen (TraktorCollection.Playlists c)
                +:+ String (ascii_of_nat 10) EmptyString), g)
  end.

(** The package-level [GetPlaylistByName]: [return tc.GetPlaylistByName(name)].
    Calling the method through a nil [tc] is allowed in Go; the panic
    comes from the first thing the method does, reading [c.Playlists]. *)
Definition LoaderGetPlaylistByName (w : World) (g : Globals) (name : string)
    : outcome (option PlaylistPtr) * Globals :=
  let g := loadOnce w g in
  match tc g with
  | None => (NilDereference, g)
  | Some c => (Returns (GetPlaylistByName c name), g)
  end.

(** The loader-facing operations, as a caller invokes them. *)
Inductive Call : Type :=
  | CallGetPlaylists
  | CallGetSortedPlaylistNames
  | CallLoadCollection
  | CallGetPlaylistByName (name : string).

Inductive Value : Type :=
  | VPlaylists (playlists : list Playlist.t)
  | VNames (names : list string)
  | VPrinted (text : string)
  | VPlaylist (p : option PlaylistPtr).

Definition mapOutcome {A B : Type} (f : A → B) (r : outcome A * Globals)
    : outcome B * Globals :=
  match r with
  | (Returns a, g) => (Returns (f a), g)
  | (NilDereference, g) => (NilDereference, g)
  end.

(** One loader call made in world [w]. *)
Definition call (w : World) (c : Call) (g : Globals) : outcome Value * Globals :=
  match c with
  | CallGetPlaylists => mapOutcome VPlaylists (GetPlaylists w g)
  | CallGetSortedPlaylistNames => mapOutcome VNames (GetSortedPlaylistNames w g)
  | CallLoadCollection => mapOutcome VPrinted (LoadCollection w g)
  | CallGetPlaylistByName name => mapOutcome VPlaylist (LoaderGetPlaylistByName w g name)
  end.

(** A sequence of loader calls, each made in the world of its moment
    (the file system may change between calls). A panic is recorded and
    the sequence goes on, as when the caller recovers from it. *)
Fixpoint exec (calls : list (World * Call)) (g : Globals)
    : list (outcome Value) * Globals :=
  match calls with
  | [] => ([], g)
  | (w, c) :: rest =>
      let '(r, g) := call w c g in
      let '(rs, g) := exec rest g in
      (r :: rs, g)
  end.

(** The same sequence when nobody recovers: the first panic ends the
    process and the remaining calls are never made. *)
Fixpoint run (calls : list (World * Call)) (g : Globals)
    : list (outcome Value) * Globals :=
  match calls with
  | [] => ([], g)
  | (w, c) :: rest =>
      match call w c g with
      | (NilDereference, g) => ([NilDereference], g)
      | (Returns v, g) =>
          let '(rs, g) := run rest g in
          (Returns v :: rs, g)
      end
  end.

(** ** Sample documents *)

Definition sampleItem (key : string) : PlaylistItem.t :=
  {| PlaylistItem.PrimaryKey := {| PrimaryKey.Type_ := "TRACK"; PrimaryKey.Key := key |} |}.

Definition sampleData (keys : list string) : PlaylistData.t :=
  {| PlaylistData.Entries := Z.of_nat (length keys); PlaylistData.Type_ := "LIST";
     PlaylistData.UUID := ""; PlaylistData.Items := map sampleItem keys |}.

Definition sampleLocation (volume dir file : string) : Location.t :=
  {| Location.Dir := dir; Location.File := file; Location.Volume := volume;
     Location.VolumeID := volume |}.

Definition sampleEntry (artist title volume dir file : string) : Entry.t :=
  {| Entry.Artist := artist; Entry.Title := title; Entry.AudioID := "";
     Entry.ModifiedDate := ""; Entry.ModifiedTime := "";
     Entry.Location := sampleLocation volume dir file;
     Entry.Album := {| Album.Title := ""; Album.Track := 0; Album.OfTracks := 0 |};
     Entry.Info :=
       {| Info.Bitrate := 320000; Info.Genre := "House"; Info.Label := "";
          Info.Comment := ""; Info.Comment2 := ""; Info.CoverArtID := "";
          Info.Key := "8m"; Info.PlayCount := 0; Info.PlayTime := 0;
          Info.PlayTimeFloat := 0%float; Info.ImportDate := "";
          Info.LastPlayed := ""; Info.Ranking := 0; Info.ReleaseDate := "";
          Info.Remixer := ""; Info.Producer := ""; Info.Mix := "";
          Info.FileSize := 0; Info.Flags := 0 |};
     Entry.Tempo := {| Tempo.Bpm := 124%float; Tempo.BpmQuality := 100%float |};
     Entry.Loudness :=
       {| Loudness.PeakDb := 0%float; Loudness.PerceivedDb := 0%float;
          Loudness.AnalyzedDb := 0%float |};
     Entry.MusicalKey := {| MusicalKey.Value := 15 |};
     Entry.CuePoints := [];
     Entry.LoopInfo := {| LoopInfo.LoopStart := 0%float; LoopInfo.LoopEnd := 0%float |};
     Entry.PrimaryKey := "" |}.

(** A node that is both a playlist and a folder. *)
Definition sampleMixed : Node.t :=
  {| Node.Type_ := "PLAYLIST"; Node.Name := "Sets"; Node.Count := 1;
     Node.Subnodes :=
       [ {| Node.Type_ := "PLAYLIST"; Node.Name := "Friday"; Node.Count := 0;
            Node.Subnodes := [];
            Node.Playlist := Some (sampleData ["Backup/:Music/:b.mp3"]) |} ];
     Node.Playlist := Some (sampleData ["Macintosh HD/:Music/:a.mp3"; "gone"]) |}.

(** A folder that carries a PLAYLIST element. *)
Definition sampleFolderWithPlaylist : Node.t :=
  {| Node.Type_ := "FOLDER"; Node.Name := "Mix"; Node.Count := 1;
     Node.Subnodes := [];
     Node.Playlist := Some (sampleData ["Macintosh HD/:Music/:a.mp3"]) |}.

Definition sampleRoot : Node.t :=
  {| Node.Type_ := "FOLDER"; Node.Name := "$ROOT"; Node.Count := 2;
     Node.Subnodes := [sampleMixed; sampleFolderWithPlaylist];
     Node.Playlist := None |}.

(** Two entries share the key ["Macintosh HD/:Music/:a.mp3"]. *)
Definition sampleNML : NML.t :=
  {| NML.Version := "19";
     NML.Collection :=
       {| Collection.Entries := 3;
          Collection.Tracks :=
            [ sampleEntry "A" "first" "Macintosh HD" "/:Music/:" "a.mp3";
              sampleEntry "B" "other" "Backup" "/:Music/:" "b.mp3";
              sampleEntry "A" "second" "Macintosh HD" "/:Mus" "ic/:a.mp3" ] |};
     NML.Playlists := {| Playlists.Node := sampleRoot |} |}.

(** A machine with the collection of Traktor 4.4.0 in place. *)
Definition sampleWorld : World :=
  {| UserHomeDir := Some "/Users/dj";
     Stat := λ path,
       String.eqb path "/Users/dj/Documents/Native Instruments/Traktor 4.4.0/collection.nml";
     Open := λ path,
       if String.eqb path "/Users/dj/Documents/Native Instruments/Traktor 4.4.0/collection.nml"
       then Some "<NML/>" else None;
     Decode := λ _, Some sampleNML |}.

(** A machine without Traktor. *)
Definition emptyWorld : World :=
  {| UserHomeDir := Some "/Users/dj"; Stat := λ _, false; Open := λ _, None;
     Decode := λ _, None |}.

(** ** The calls the walk makes *)

(** [visits root rootPath node parentPath]: the call
    [extractPlaylists(root, rootPath, _)] makes, directly or through its
    recursive calls, the call [extractPlaylists(node, parentPath, _)]. *)
Inductive visits : Node.t → string → Node.t → string → Prop :=
  | visits_here node parentPath : visits node parentPath node parentPath
  | visits_sub node parentPath subnode d dPath :
      subnode ∈ Node.Subnodes node →
      visits subnode (currentPath parentPath (Node.Name node)) d dPath →
      visits node parentPath d dPath.

(** ** Paths made of plain names *)

Fixpoint hasSeparator (s : string) : bool :=
  match s with
  | EmptyString => false
  | String c s' => os.IsPathSeparator c || hasSeparator s'
  end.

(** A name that [filepath.Clean] copies as it is: not empty, not ["."],
    not [".."], without a separator. *)
Definition plainName (s : string) : Prop :=
  s ≠ "" ∧ s ≠ "." ∧ s ≠ ".." ∧ hasSeparator s = false.

(** The directory field Traktor writes for a list of folder names: every
    name is preceded by the token ["/:"]. An empty last name stands for
    the token that ends the field in the files Traktor writes, as in
    ["/:Music/:House/:"]. *)
Fixpoint traktorDir (names : list string) : string :=
  match names with
  | [] => EmptyString
  | name :: rest => "/:" +:+ name +:+ traktorDir rest
  end.

(** The names of a list that are not empty. *)
Definition nonEmpty (names : list string) : list string :=
  filter (λ name, name ≠ "") names.

(** What the loop of [filepath.Clean] does with a real path element:
    [out] gets a separator, unless it is still at its start, and then the
    element. *)
Definition appendName (rooted : bool) (out name : string) : string :=
  (if (rooted && negb (String.length out =? 1)%nat)
      || (negb rooted && negb (String.length out =? 0)%nat)
   then out +:+ "/" else out) +:+ name.

(** Has [out] left its start, so that the next element is preceded by
    a separator? *)
Definition started (rooted : bool) (out : string) : Prop :=
  if rooted then (2 ≤ String.length out)%nat else (1 ≤ String.length out)%nat.

(** The file [collectionLocation] looks at for a version. *)
Definition candidate (homeDir version : string) : string :=
  filepath.Join [homeDir; "Documents"; "Native Instruments"; version; "collection.nml"].

(** A state of the loader in which a collection is cached. *)
Definition cached (col : TraktorCollection.t) (n : nat) : Globals :=
  {| tc := Some col; tcLoaded := true; parses := n |}.

(** ** More of the collection index *)

(** The loop of [GetPlaylistByPath], as [findPlaylistByName]. *)
Fixpoint findPlaylistByPath (playlists : list Playlist.t) (i : nat)
    (path : string) : option PlaylistPtr :=
  match playlists with
  | [] => None
  | p :: rest =>
      if String.eqb (Playlist.Path p) path then Some i
      else findPlaylistByPath rest (S i) path
  end.

(** [(c *TraktorCollection) GetPlaylistByPath] *)
Definition GetPlaylistByPath (c : TraktorCollection.t) (path : string) : option PlaylistPtr :=
  findPlaylistByPath (TraktorCollection.Playlists c) 0 path.

(** [strings.Contains]: [substr] starts at some position of [s]. *)
Fixpoint Contains (s substr : string) : bool :=
  strings.HasPrefix s substr
  || match s with
     | EmptyString => false
     | String _ s' => Contains s' substr
     end.

(** [c < utf8.RuneSelf] for every byte. *)
Fixpoint isASCII (s : string) : bool :=
  match s with
  | EmptyString => true
  | String c s' => (nat_of_ascii c <? 128)%nat && isASCII s'
  end.

(** [if 'A' <= c && c <= 'Z' { c += 'a' - 'A' }] *)
Definition lowerByte (c : ascii) : ascii :=
  if (65 <=? nat_of_ascii c)%nat && (nat_of_ascii c <=? 90)%nat
  then ascii_of_nat (nat_of_ascii c + 32)
  else c.

Fixpoint lowerBytes (s : string) : string :=
  match s with
  | EmptyString => EmptyString
  | String c s' => String (lowerByte c) (lowerBytes s')
  end.

Section lower_case.

(** [strings.Map(unicode.ToLower, s)], which [strings.ToLower] falls back
    to for a string with a byte outside ASCII. The Unicode tables are not
    part of this development. *)
Variable unicodeToLower : string → string.

(** [strings.ToLower]: an ASCII string has its letters [A] to [Z]
    replaced byte by byte. *)
Definition ToLower (s : string) : string :=
  if isASCII s then lowerBytes s else unicodeToLower s.

(** The condition of the loop of [SearchTracks], for the lowered
    query. *)
Definition matchesQuery (query : string) (track : Track.t) : bool :=
  Contains (ToLower (Track.Artist track)) query
  || Contains (ToLower (Track.Title track)) query
  || Contains (ToLower (Track.Album track)) query.

(** [(c *TraktorCollection) SearchTracks] *)
Definition SearchTracks (c : TraktorCollection.t) (query : string) : list Track.t :=
  let query := ToLower query in
  fold_left
    (λ results track,
       if matchesQuery query track then results ++ [track] else results)
    (TraktorCollection.Tracks c) [].

(** [(c *TraktorCollection) GetTracksByKey] *)
Definition GetTracksByKey (c : TraktorCollection.t) (key : string) : list Track.t :=
  let key := ToLower key in
  fold_left
    (λ results track,
       if String.eqb (ToLower (Track.Key track)) key then results ++ [track]
       else results)
    (TraktorCollection.Tracks c) [].

End lower_case.

(** [(c *TraktorCollection) GetTracksByBPMRange]: [track.BPM >= minBPM]
    is the IEEE comparison [minBPM <= track.BPM]. *)
Definition GetTracksByBPMRange (c : TraktorCollection.t) (minBPM maxBPM : float64)
    : list Track.t :=
  fold_left
    (λ results track,
       if PrimFloat.leb minBPM (Track.BPM track)
          && PrimFloat.leb (Track.BPM track) maxBPM
       then results ++ [track] else results)
    (TraktorCollection.Tracks c) [].

(** ** Display helpers *)

(** [strconv.Itoa] *)
Definition Itoa (i : Z) : string := NilZero.string_of_int (Z.to_int i).

(** The table of [KeyValueToString]. *)
Definition keys : list string :=
  [ "1d"; "1m"; "2d"; "2m"; "3d"; "3m";
    "4d"; "4m"; "5d"; "5m"; "6d"; "6m";
    "7d"; "7m"; "8d"; "8m"; "9d"; "9m";
    "10d"; "10m"; "11d"; "11m"; "12d"; "12m" ].

(** [KeyValueToString] *)
Definition KeyValueToString (value : Z) : string :=
  if (0 <=? value)%Z && (value <? Z.of_nat (length keys))%Z
  then nth (Z.to_nat value) keys ""
  else "".

(** [CuePointTypeToString] *)
Definition CuePointTypeToString (cueType : Z) : string :=
  match cueType with
  | 0%Z => "Cue"
  | 1%Z => "Fade In"
  | 2%Z => "Fade Out"
  | 3%Z => "Load"
  | 4%Z => "Grid"
  | 5%Z => "Loop"
  | _ => "Unknown"
  end.

Section float_conversion.

(** What the conversion [int(f)] gives for a NaN, an infinity or a value
    outside the range of [int]: Go leaves it to the implementation. *)
Variable intOfUnrepresentable : float64 → Z.

(** The conversion [int(f)] of a [float64] to a 64-bit [int]: the
    fraction is discarded. *)
Definition float64ToInt (f : float64) : Z :=
  match Prim2SF f with
  | S754_zero _ => 0%Z
  | S754_finite negative m e =>
      let magnitude :=
        if (0 <=? e)%Z then (Z.pos m * 2 ^ e)%Z else (Z.pos m / 2 ^ (- e))%Z in
      let value := if negative then (- magnitude)%Z else magnitude in
      if (- 2 ^ 63 <=? value)%Z && (value <? 2 ^ 63)%Z then value
      else intOfUnrepresentable f
  | _ => intOfUnrepresentable f
  end.


End float_conversion.

(** ** Package [windows]: printing integers *)

Module windows.

(** The value an [int64] computation wraps around to. *)
Definition wrap64 (z : Z) : Z := ((z + 2 ^ 63) mod 2 ^ 64 - 2 ^ 63)%Z.

(** [byte('0' + n%10)]: [%] truncates towards zero, the conversion keeps
    the low eight bits. *)
Definition digitByte (n : Z) : ascii :=
  ascii_of_N (Z.to_N ((48 + Z.rem n 10) mod 256)).

(** The loop [for n > 0] of [formatInt], which puts the last digit of
    [n] in front of [digits] and divides [n] by ten. An [int64] has at
    most 19 digits, so the loop is run with fuel 19. *)
Fixpoint formatDigits (fuel : nat) (n : Z) (digits : string) : string :=
  match fuel with
  | O => digits
  | S fuel' =>
      if (0 <? n)%Z
      then formatDigits fuel' (Z.quot n 10) (String (digitByte n) digits)
      else digits
  end.

(** [formatInt] *)
Definition formatInt (n : Z) : string :=
  if (n =? 0)%Z then "0"
  else
    let negative := (n <? 0)%Z in
    let n := if negative then wrap64 (- n) else n in
    let digits := formatDigits 19 n "" in
    if negative then String "-" digits else digits.

(** The conversion [float64(n)] of an [int64]: the nearest [float64],
    ties to even. *)
Definition float64OfInt (n : Z) : float64 :=
  SF2Prim (binary_normalize prec emax n 0 false).

Section sizes.

(** See [float64ToInt]. *)
Variable intOfUnrepresentable : float64 → Z.

(** [formatFloat] *)
Definition formatFloat (f : float64) : string :=
  if PrimFloat.eqb f (float64OfInt (float64ToInt intOfUnrepresentable f))
  then formatInt (float64ToInt intOfUnrepresentable f)
  else
    let intPart := float64ToInt intOfUnrepresentable f in
    let decPart :=
      float64ToInt intOfUnrepresentable
        (PrimFloat.mul (PrimFloat.sub f (float64OfInt intPart)) (float64OfInt 10)) in
    let decPart := if (decPart <? 0)%Z then wrap64 (- decPart) else decPart in
    formatInt intPart +:+ "." +:+ formatInt decPart.

Definition KB : Z := 1024.
Definition MB : Z := KB * 1024.
Definition GB : Z := MB * 1024.

(** [formatSize] *)
Definition formatSize (size : Z) : string :=
  if (GB <=? size)%Z then
    formatFloat (PrimFloat.div (float64OfInt size) (float64OfInt GB)) +:+ " GB"
  else if (MB <=? size)%Z then
    formatFloat (PrimFloat.div (float64OfInt size) (float64OfInt MB)) +:+ " MB"
  else if (KB <=? size)%Z then
    formatFloat (PrimFloat.div (float64OfInt size) (float64OfInt KB)) +:+ " KB"
  else formatInt size +:+ " B".

End sizes.

(** An [os.DirEntry], as far as [loadChildren] looks at it. *)
Module DirEntry.
Record t := mk { Name : string; IsDir : bool }.
End DirEntry.

Section tree.

(** The constants [traktor.Prefix], [traktor.PlaylistPrefix] and
    [traktor.CollectionPrefix]: they are declared in a file of package
    [traktor] that is not among the sources at hand. *)
Variables Prefix PlaylistPrefix CollectionPrefix : string.

(** The loop of [loadChildren] over the playlist names: a name that
    starts with ["_"] is passed over, any other gives the child
    [fmt.Sprintf("%s/%s", traktor.PlaylistPrefix, entry)]. *)
Definition playlistChildren (names : list string) : list string :=
  fold_left
    (λ children entry,
       if strings.HasPrefix entry "_" then children
       else children ++ [PlaylistPrefix +:+ "/" +:+ entry])
    names [].

(** The first loop of the file branch: the names of the directories
    that are not hidden. *)
Definition visibleDirNames (entries : list DirEntry.t) : list string :=
  fold_left
    (λ dirNames entry,
       if DirEntry.IsDir entry && negb (strings.HasPrefix (DirEntry.Name entry) ".")
       then dirNames ++ [DirEntry.Name entry] else dirNames)
    entries [].

(** The second loop of the file branch. *)
Definition childPaths (path : string) (dirNames : list string) : list string :=
  fold_left (λ children name, children ++ [filepath.Join [path; name]]) dirNames [].

(** [(s *AppState) loadChildren]. The state is the map [s.treeData] and
    the variables of the loader; [readDir] is [os.ReadDir], [None] when
    it returns an error. A nil slice is [[]]. *)
Definition loadChildren (w : World) (readDir : string → option (list DirEntry.t))
    (uid : string) (treeData : gmap string (list string)) (g : Globals)
    : outcome (list string) * gmap string (list string) * Globals :=
  match treeData !! uid with
  | Some children => (Returns children, treeData, g)
  | None =>
      let path := uid in
      if String.eqb path "" then (Returns [], treeData, g)
      else if strings.HasPrefix path Prefix && IsAvailable w then
        if String.eqb path Prefix then
          let children := [PlaylistPrefix; CollectionPrefix] in
          (Returns children, <[uid := children]> treeData, g)
        else if String.eqb path PlaylistPrefix then
          match GetSortedPlaylistNames w g with
          | (NilDereference, g) => (NilDereference, treeData, g)
          | (Returns names, g) =>
              let children := playlistChildren names in
              (Returns children, <[uid := children]> treeData, g)
          end
        else (Returns [], <[uid := []]> treeData, g)
      else
        match readDir path with
        | None => (Returns [], treeData, g)
        | Some entries =>
            let dirNames := merge_sort String.le (visibleDirNames entries) in
            let children := childPaths path dirNames in
            (Returns children, <[uid := children]> treeData, g)
        end
  end.

End tree.

End windows.

(** The digits of the loop of [formatInt] as a decimal numeral of the
    standard library, for the comparison with [strconv.Itoa]. *)
Definition digitUint (k : Z) (d : Decimal.uint) : Decimal.uint :=
  match k with
  | 1%Z => Decimal.D1 d | 2%Z => Decimal.D2 d | 3%Z => Decimal.D3 d
  | 4%Z => Decimal.D4 d | 5%Z => Decimal.D5 d | 6%Z => Decimal.D6 d
  | 7%Z => Decimal.D7 d | 8%Z => Decimal.D8 d | 9%Z => Decimal.D9 d
  | _ => Decimal.D0 d
  end.

Fixpoint digitsUint (fuel : nat) (n : Z) (acc : Decimal.uint) : Decimal.uint :=
  match fuel with
  | O => acc
  | S fuel' =>
      if (0 <? n)%Z then digitsUint fuel' (n / 10) (digitUint (n mod 10) acc)
      else acc
  end.

(** ** The nodes of a tree, in the order of the walk *)

(** The node, then the nodes of its subtrees from left to right. *)
Fixpoint preorder (node : Node.t) : list Node.t :=
  node :: flat_map preorder (Node.Subnodes node).

(** Does [extractPlaylists] emit the node itself? *)
Definition emitted (node : Node.t) : bool :=
  String.eqb (Node.Type_ node) "PLAYLIST"
  && match Node.Playlist node with Some _ => true | None => false end.

(** Is the name one that adds a segment to the path? *)
Definition namesSegment (name : string) : bool :=
  negb (String.eqb name "") && negb (String.eqb name "$ROOT").

(** [route root names node]: [node] is reached from [root] through
    subnodes, and [names] are the names of the nodes on the way, from
    [root] to [node], both included. *)
Inductive route : Node.t → list string → Node.t → Prop :=
  | route_here node : route node [Node.Name node] node
  | route_sub node subnode names d :
      subnode ∈ Node.Subnodes node →
      route subnode names d →
      route node (Node.Name node :: names) d.

(** * Properties *)

(** ** Strings *)

(** [String.append] is kept folded by [simpl]; this unfolds one step. *)
Local Ltac app_step := cbv [String.append]; fold String.append; cbn.
Local Ltac app_step_in H :=
  cbv [String.append] in H; fold String.append in H; cbn in H.

Section string_facts.
Implicit Types s t u : string.

Lemma app_empty_r s : s +:+ "" = s.
Proof. induction s as [|c s IH]; [done|]. app_step. by rewrite IH. Qed.

Lemma app_assoc_str s t u : (s +:+ t) +:+ u = s +:+ t +:+ u.
Proof. induction s as [|c s IH]; [done|]. app_step. by rewrite IH. Qed.

Lemma length_app_str s t :
  String.length (s +:+ t) = (String.length s + String.length t)%nat.
Proof. induction s as [|c s IH]; [done|]. app_step. by rewrite IH. Qed.

(** Cancelling a common suffix. *)
Lemma app_inv_tail_str s t u : s +:+ u = t +:+ u → s = t.
Proof.
  revert t. induction s as [|c s IH]; intros [|d t] H; app_step_in H.
  - done.
  - apply (f_equal String.length) in H. cbn in H.
    rewrite length_app_str in H. lia.
  - apply (f_equal String.length) in H. cbn in H.
    rewrite length_app_str in H. lia.
  - injection H as -> H. f_equal. by apply IH.
Qed.

End string_facts.

(** ** The primary key *)

(** C2, as stated, does not hold: without a delimiter the boundary
    between the components is lost. The locations
    [("Macintosh HD", "/:Music/:", "a.mp3")] and
    [("Macintosh HD", "/:Mus", "ic/:a.mp3")] differ in two components and
    have the same key. *)
Lemma buildPrimaryKey_not_injective :
  ¬ (∀ l1 l2 : Location.t,
       (Location.Volume l1, Location.Dir l1, Location.File l1)
         ≠ (Location.Volume l2, Location.Dir l2, Location.File l2) →
       buildPrimaryKey l1 ≠ buildPrimaryKey l2).
Proof.
  intros H.
  apply (H (sampleLocation "Macintosh HD" "/:Music/:" "a.mp3")
           (sampleLocation "Macintosh HD" "/:Mus" "ic/:a.mp3")).
  - discriminate.
  - reflexivity.
Qed.

(** C2, amended: the key is the delimiter-free concatenation of volume,
    directory and file; equal triples give equal keys; and two triples
    that differ in exactly one component give different keys. *)
Theorem buildPrimaryKey_concat (l1 l2 : Location.t) :
  buildPrimaryKey l1
    = Location.Volume l1 +:+ Location.Dir l1 +:+ Location.File l1
  ∧ ((Location.Volume l1, Location.Dir l1, Location.File l1)
       = (Location.Volume l2, Location.Dir l2, Location.File l2) →
     buildPrimaryKey l1 = buildPrimaryKey l2)
  ∧ (Location.Volume l1 ≠ Location.Volume l2
       ∧ Location.Dir l1 = Location.Dir l2
       ∧ Location.File l1 = Location.File l2
     ∨ Location.Volume l1 = Location.Volume l2
       ∧ Location.Dir l1 ≠ Location.Dir l2
       ∧ Location.File l1 = Location.File l2
     ∨ Location.Volume l1 = Location.Volume l2
       ∧ Location.Dir l1 = Location.Dir l2
       ∧ Location.File l1 ≠ Location.File l2
     → buildPrimaryKey l1 ≠ buildPrimaryKey l2).
Proof.
  unfold buildPrimaryKey. split; [done|]. split.
  - intros [= -> -> ->]. done.
  - intros [(Hv & -> & ->)|[(-> & Hd & ->)|(-> & -> & Hf)]] Heq.
    + apply Hv. rewrite <- !app_assoc_str in Heq.
      apply app_inv_tail_str in Heq. by apply app_inv_tail_str in Heq.
    + apply Hd. apply (inj _) in Heq. by apply app_inv_tail_str in Heq.
    + apply Hf. apply (inj _) in Heq. by apply (inj _) in Heq.
Qed.

Lemma buildPrimaryKey_concat_witness :
  buildPrimaryKey (sampleLocation "Macintosh HD" "/:Music/:" "a.mp3")
    = "Macintosh HD/:Music/:a.mp3"
  ∧ buildPrimaryKey (sampleLocation "Macintosh HD" "/:Music/:" "a.mp3")
    ≠ buildPrimaryKey (sampleLocation "Backup" "/:Music/:" "a.mp3").
Proof.
  pose proof (buildPrimaryKey_concat
                (sampleLocation "Macintosh HD" "/:Music/:" "a.mp3")
                (sampleLocation "Backup" "/:Music/:" "a.mp3")) as (H1 & _ & H3).
  split.
  - exact H1.
  - apply H3. left. repeat split. discriminate.
Defined.

(** ** The file path *)

(** How [strings.ReplaceAll] treats the token ["/:"]: scanning from the
    left, a token is replaced by the separator and the scan goes on
    behind it; any other byte is copied. *)
Lemma ReplaceAll_token_nil : strings.ReplaceAll "" "/:" "/" = "".
Proof. reflexivity. Qed.

Lemma ReplaceAll_token_here (s : string) :
  strings.ReplaceAll ("/:" +:+ s) "/:" "/" = "/" +:+ strings.ReplaceAll s "/:" "/".
Proof. reflexivity. Qed.

Lemma ReplaceAll_token_other (c : ascii) (s : string) :
  strings.HasPrefix (String c s) "/:" = false →
  strings.ReplaceAll (String c s) "/:" "/" = String c (strings.ReplaceAll s "/:" "/").
Proof.
  intros H. unfold strings.ReplaceAll. cbn [String.eqb Ascii.eqb Bool.eqb].
  cbn [strings.replaceFrom]. by rewrite H.
Qed.

(** *** [filepath.Clean] on plain names *)

Section clean_plain.
Implicit Types (name tail out path : string) (names : list string).

Lemma app_cons (c : ascii) (s t : string) : String c s +:+ t = String c (s +:+ t).
Proof. reflexivity. Qed.

Lemma app_nil_str (s : string) : "" +:+ s = s.
Proof. reflexivity. Qed.

(** The body of the loop of [filepath.Clean], for one more byte to
    read. *)
Lemma cleanLoop_step fuel rooted (c : ascii) rest dotdot out :
  filepath.cleanLoop (S fuel) rooted (String c rest) dotdot out
  = if os.IsPathSeparator c then filepath.cleanLoop fuel rooted rest dotdot out
    else if filepath.isDot c && filepath.atElementEnd rest then
      filepath.cleanLoop fuel rooted rest dotdot out
    else if filepath.isDot c && strings.HasPrefix rest "."
            && filepath.atElementEnd (strings.drop 1 rest) then
      if (dotdot <? String.length out)%nat then
        filepath.cleanLoop fuel rooted (strings.drop 1 rest) dotdot
          (String.substring 0
             (filepath.backtrack out dotdot (String.length out - 1)) out)
      else if negb rooted then
        filepath.cleanLoop fuel rooted (strings.drop 1 rest)
          (String.length
             ((if (0 <? String.length out)%nat then out +:+ "/" else out) +:+ ".."))
          ((if (0 <? String.length out)%nat then out +:+ "/" else out) +:+ "..")
      else filepath.cleanLoop fuel rooted (strings.drop 1 rest) dotdot out
    else
      filepath.cleanLoop fuel rooted (snd (filepath.element (String c rest))) dotdot
        ((if (rooted && negb (String.length out =? 1)%nat)
             || (negb rooted && negb (String.length out =? 0)%nat)
          then out +:+ "/" else out)
         +:+ fst (filepath.element (String c rest))).
Proof.
  cbn [filepath.cleanLoop].
  repeat (match goal with |- context [if ?b then _ else _] => destruct b end;
          try reflexivity).
  all: by destruct (filepath.element _).
Qed.

Lemma element_plain name tail :
  hasSeparator name = false →
  filepath.atElementEnd tail = true →
  filepath.element (name +:+ tail) = (name, tail).
Proof.
  intros Hname Htail. induction name as [|c name IH].
  - rewrite app_nil_str.
    destruct tail as [|d tail]; [done|].
    cbn [filepath.atElementEnd] in Htail. cbn [filepath.element]. by rewrite Htail.
  - cbn [hasSeparator] in Hname. apply orb_false_iff in Hname as [Hc Hname].
    rewrite app_cons. cbn [filepath.element]. by rewrite Hc, (IH Hname).
Qed.

Lemma atElementEnd_app name tail :
  hasSeparator name = false →
  filepath.atElementEnd tail = true →
  filepath.atElementEnd (name +:+ tail) = match name with "" => true | _ => false end.
Proof.
  intros Hname Htail. destruct name as [|c name]; [done|].
  cbn [hasSeparator] in Hname. apply orb_false_iff in Hname as [Hc _].
  by rewrite app_cons.
Qed.

(** One iteration on a plain name. *)
Lemma cleanLoop_name fuel rooted name tail dotdot out :
  plainName name →
  filepath.atElementEnd tail = true →
  filepath.cleanLoop (S fuel) rooted (name +:+ tail) dotdot out
  = filepath.cleanLoop fuel rooted tail dotdot (appendName rooted out name).
Proof.
  intros (Hne & Hdot & Hdotdot & Hsep) Htail.
  pose proof (element_plain name tail Hsep Htail) as Helem.
  destruct name as [|c name]; [done|].
  cbn [hasSeparator] in Hsep. apply orb_false_iff in Hsep as [Hc Hsep].
  rewrite app_cons in *. rewrite cleanLoop_step, Hc, Helem.
  assert (filepath.isDot c && filepath.atElementEnd (name +:+ tail) = false) as ->.
  { rewrite atElementEnd_app by done.
    destruct name; [|by rewrite andb_false_r].
    rewrite andb_true_r. apply not_true_is_false. intros Hd.
    apply Ascii.eqb_eq in Hd. by subst c. }
  assert (filepath.isDot c && strings.HasPrefix (name +:+ tail) "."
          && filepath.atElementEnd (strings.drop 1 (name +:+ tail)) = false) as ->.
  { destruct name as [|d name].
    - rewrite app_nil_str.
      destruct tail as [|t tail]; [by rewrite andb_false_r|].
      cbn [filepath.atElementEnd] in Htail.
      apply Ascii.eqb_eq in Htail as ->. by rewrite andb_false_r.
    - rewrite app_cons. cbn [hasSeparator] in Hsep.
      apply orb_false_iff in Hsep as [Hd Hsep].
      cbn [strings.drop strings.HasPrefix].
      rewrite atElementEnd_app by done.
      destruct name; [|by rewrite andb_false_r].
      rewrite !andb_true_r. apply not_true_is_false.
      intros [Hc' Hd']%andb_true_iff.
      apply Ascii.eqb_eq in Hc', Hd'. by subst c d. }
  reflexivity.
Qed.

Lemma cleanLoop_separator fuel rooted rest dotdot out :
  filepath.cleanLoop (S fuel) rooted (String "/" rest) dotdot out
  = filepath.cleanLoop fuel rooted rest dotdot out.
Proof. reflexivity. Qed.

Lemma cleanLoop_done fuel rooted dotdot out :
  filepath.cleanLoop fuel rooted "" dotdot out = out.
Proof. by destruct fuel. Qed.

Lemma plainName_length name : plainName name → (1 ≤ String.length name)%nat.
Proof. intros (Hne & _). destruct name; [done|]. cbn. lia. Qed.

Lemma nonEmpty_cons_plain name names :
  plainName name → nonEmpty (name :: names) = name :: nonEmpty names.
Proof.
  intros (Hne & _). unfold nonEmpty. rewrite filter_cons.
  by destruct (decide (name ≠ "")).
Qed.

Lemma nonEmpty_cons_empty names : nonEmpty ("" :: names) = nonEmpty names.
Proof. unfold nonEmpty. rewrite filter_cons. by destruct (decide ("" ≠ "")). Qed.

(** The loop on names joined by separators: the plain names are
    appended one after the other, the empty ones are skipped. *)
Lemma cleanLoop_names names fuel rooted dotdot out :
  Forall (λ name, name = "" ∨ plainName name) names →
  (String.length (strings.Join names "/") ≤ fuel)%nat →
  filepath.cleanLoop fuel rooted (strings.Join names "/") dotdot out
  = fold_left (appendName rooted) (nonEmpty names) out.
Proof.
  intros Hnames. revert fuel out.
  induction Hnames as [|name names Hname _ IH]; intros fuel out Hfuel.
  - apply cleanLoop_done.
  - destruct names as [|next names].
    + change (strings.Join [name] "/") with name in *.
      destruct Hname as [->|Hname].
      * rewrite nonEmpty_cons_empty. apply cleanLoop_done.
      * rewrite nonEmpty_cons_plain by done.
        pose proof (plainName_length _ Hname).
        destruct fuel as [|fuel]; [lia|].
        rewrite <- (app_empty_r name) at 1.
        rewrite cleanLoop_name by done. apply cleanLoop_done.
    + change (strings.Join (name :: next :: names) "/")
        with (name +:+ String "/" (strings.Join (next :: names) "/")) in *.
      rewrite length_app_str in Hfuel. cbn [String.length] in Hfuel.
      destruct Hname as [->|Hname].
      * rewrite nonEmpty_cons_empty, app_nil_str.
        change (String.length "") with 0%nat in Hfuel.
        destruct fuel as [|fuel]; [lia|].
        rewrite cleanLoop_separator. apply IH. lia.
      * rewrite nonEmpty_cons_plain by done.
        pose proof (plainName_length _ Hname).
        destruct fuel as [|[|fuel]]; [lia..|].
        rewrite cleanLoop_name by done.
        rewrite cleanLoop_separator. apply IH. lia.
Qed.

Lemma appendName_started rooted out name :
  started rooted out →
  appendName rooted out name = out +:+ "/" +:+ name
  ∧ started rooted (out +:+ "/" +:+ name).
Proof.
  unfold started, appendName. intros Hout. split.
  - destruct rooted; cbn [andb orb negb].
    + destruct (Nat.eqb_spec (String.length out) 1); [lia|].
      cbn. by rewrite app_assoc_str.
    + destruct (Nat.eqb_spec (String.length out) 0); [lia|].
      cbn. by rewrite app_assoc_str.
  - destruct rooted; rewrite length_app_str; lia.
Qed.

Lemma fold_appendName_started rooted names out :
  started rooted out →
  names ≠ [] →
  fold_left (appendName rooted) names out = out +:+ "/" +:+ strings.Join names "/".
Proof.
  revert out. induction names as [|name names IH]; intros out Hout Hne; [done|].
  cbn [fold_left].
  destruct (appendName_started rooted out name Hout) as [-> Hnext].
  destruct names as [|next names]; [done|].
  rewrite IH by done.
  change (strings.Join (name :: next :: names) "/")
    with (name +:+ "/" +:+ strings.Join (next :: names) "/").
  by rewrite !app_assoc_str.
Qed.

Lemma Forall_plain_nonEmpty names :
  Forall (λ name, name = "" ∨ plainName name) names →
  Forall plainName (nonEmpty names).
Proof.
  induction 1 as [|name names [->|Hname] _ IH].
  - constructor.
  - by rewrite nonEmpty_cons_empty.
  - rewrite nonEmpty_cons_plain by done. by constructor.
Qed.

(** [filepath.Clean] on a rooted path of plain names: empty elements
    disappear, nothing else changes. *)
Lemma Clean_rooted_names names :
  Forall (λ name, name = "" ∨ plainName name) names →
  filepath.Clean ("/" +:+ strings.Join names "/")
  = "/" +:+ strings.Join (nonEmpty names) "/".
Proof.
  intros Hnames.
  change ("/" +:+ strings.Join names "/") with (String "/" (strings.Join names "/")).
  unfold filepath.Clean. cbn [os.IsPathSeparator Ascii.eqb Bool.eqb].
  change (Ascii.eqb "/" os.PathSeparator) with true. cbn match.
  rewrite cleanLoop_names; [|done|cbn [String.length]; lia].
  apply Forall_plain_nonEmpty in Hnames.
  destruct (nonEmpty names) as [|name rest]; [done|].
  apply Forall_cons in Hnames as [Hname _].
  cbn [fold_left].
  change (appendName true (String filepath.Separator "") name) with ("/" +:+ name).
  destruct rest as [|next rest]; [done|].
  rewrite fold_appendName_started; [| |done].
  - change (strings.Join (name :: next :: rest) "/")
      with (name +:+ "/" +:+ strings.Join (next :: rest) "/").
    by rewrite !app_assoc_str.
  - apply plainName_length in Hname. unfold started.
    change ("/" +:+ name) with (String "/" name). cbn [String.length]. lia.
Qed.

(** The same on a relative path that starts with a plain name. *)
Lemma Clean_relative_names first names :
  plainName first →
  Forall (λ name, name = "" ∨ plainName name) names →
  filepath.Clean (strings.Join (first :: names) "/")
  = strings.Join (nonEmpty (first :: names)) "/".
Proof.
  intros Hfirst Hnames.
  assert (∃ c rest, strings.Join (first :: names) "/" = String c rest
                    ∧ os.IsPathSeparator c = false) as (c & rest & Hpath & Hc).
  { destruct Hfirst as (Hne & _ & _ & Hsep).
    destruct first as [|c first]; [done|].
    cbn [hasSeparator] in Hsep. apply orb_false_iff in Hsep as [Hc _].
    destruct names; eexists c, _; (split; [|exact Hc]); reflexivity. }
  unfold filepath.Clean. rewrite Hpath, Hc, <- Hpath.
  rewrite cleanLoop_names; [|by constructor; [right|]|lia].
  rewrite nonEmpty_cons_plain by done.
  cbn [fold_left]. change (appendName false "" first) with first.
  pose proof (plainName_length _ Hfirst) as Hlen.
  assert (first ≠ "") as Hne by apply Hfirst.
  destruct (nonEmpty names) as [|next others].
  - cbn. by destruct first.
  - rewrite fold_appendName_started; [| |done].
    + change (strings.Join (first :: next :: others) "/")
        with (first +:+ "/" +:+ strings.Join (next :: others) "/").
      destruct first; [done|]. reflexivity.
    + exact Hlen.
Qed.

End clean_plain.

(** *** The directory field of plain names *)

Section plain_dir.
Implicit Types (name file volume : string) (names : list string).

Lemma replaceFrom_plain name rest :
  hasSeparator name = false →
  strings.replaceFrom 0 (name +:+ rest) "/:" "/"
  = name +:+ strings.replaceFrom 0 rest "/:" "/".
Proof.
  intros Hname. induction name as [|c name IH]; [done|].
  cbn [hasSeparator] in Hname. apply orb_false_iff in Hname as [Hc Hname].
  rewrite !app_cons. cbn [strings.replaceFrom strings.HasPrefix].
  unfold os.IsPathSeparator, os.PathSeparator in Hc.
  rewrite Ascii.eqb_sym, Hc. cbn [andb]. by rewrite IH.
Qed.

Lemma ReplaceAll_traktorDir names :
  Forall (λ name, hasSeparator name = false) names →
  strings.ReplaceAll (traktorDir names) "/:" "/"
  = match names with [] => "" | _ => "/" +:+ strings.Join names "/" end.
Proof.
  change (strings.ReplaceAll (traktorDir names) "/:" "/")
    with (strings.replaceFrom 0 (traktorDir names) "/:" "/").
  induction 1 as [|name names Hname _ IH]; [done|].
  change (strings.replaceFrom 0 (traktorDir (name :: names)) "/:" "/")
    with ("/" +:+ strings.replaceFrom 0 (name +:+ traktorDir names) "/:" "/").
  rewrite replaceFrom_plain, IH by done.
  destruct names as [|next names]; [by rewrite app_empty_r|done].
Qed.

Lemma plain_or_empty_hasSeparator names :
  Forall (λ name, name = "" ∨ plainName name) names →
  Forall (λ name, hasSeparator name = false) names.
Proof.
  intros H. eapply Forall_impl; [exact H|].
  by intros name [->|(_ & _ & _ & Hsep)].
Qed.

(** The directory [buildFilePath] works with. *)
Lemma dir_of_names names :
  Forall (λ name, name = "" ∨ plainName name) names →
  strings.TrimPrefix (strings.ReplaceAll (traktorDir names) "/:" "/") "/"
  = strings.Join names "/".
Proof.
  intros Hnames. rewrite ReplaceAll_traktorDir by by apply plain_or_empty_hasSeparator.
  by destruct names.
Qed.

Lemma Join_cons name names :
  names ≠ [] →
  strings.Join (name :: names) "/" = name +:+ "/" +:+ strings.Join names "/".
Proof. by destruct names. Qed.

(** Joining the directory and the file is joining all the names; an
    empty directory counts as one empty name. *)
Lemma Join_dir_file names file :
  strings.Join names "/" +:+ "/" +:+ file
  = strings.Join (match names with [] => [""] | _ => names end ++ [file]) "/".
Proof.
  destruct names as [|first names]; [done|].
  revert first. induction names as [|next names IH]; intros first; [done|].
  change (strings.Join (first :: next :: names) "/")
    with (first +:+ "/" +:+ strings.Join (next :: names) "/").
  rewrite !app_assoc_str, IH. done.
Qed.

Lemma nonEmpty_dir_file names file :
  plainName file →
  nonEmpty (match names with [] => [""] | _ => names end ++ [file])
  = nonEmpty names ++ [file].
Proof.
  intros Hfile. unfold nonEmpty at 1. rewrite filter_app.
  fold (nonEmpty [file]). rewrite (nonEmpty_cons_plain file []) by done.
  by destruct names.
Qed.

Lemma plain_or_empty_dir_file names file :
  Forall (λ name, name = "" ∨ plainName name) names →
  plainName file →
  Forall (λ name, name = "" ∨ plainName name)
    (match names with [] => [""] | _ => names end ++ [file]).
Proof.
  intros Hnames Hfile. apply Forall_app. split.
  - destruct names; [by constructor; [left|]|done].
  - by constructor; [right|].
Qed.




(** [filepath.Join] below the root: the directory of the names and the
    file. Empty names leave no trace. *)
Lemma Join_root_names names file :
  Forall (λ name, name = "" ∨ plainName name) names →
  plainName file →
  filepath.Join ["/"; strings.Join names "/"; file]
  = "/" +:+ strings.Join (nonEmpty names ++ [file]) "/".
Proof.
  intros Hnames Hfile.
  change (filepath.Join ["/"; strings.Join names "/"; file])
    with (filepath.Clean
            ("/" +:+ "" +:+ "/" +:+ (strings.Join names "/" +:+ "/" +:+ file))).
  rewrite Join_dir_file.
  rewrite <- (Join_cons "") by by destruct names.
  rewrite Clean_rooted_names
    by (constructor; [by left|by apply plain_or_empty_dir_file]).
  by rewrite nonEmpty_cons_empty, nonEmpty_dir_file.
Qed.

(** [filepath.Join] below ["/Volumes"] and a volume with a plain name. *)
Lemma Join_volume_names volume names file :
  plainName volume →
  Forall (λ name, name = "" ∨ plainName name) names →
  plainName file →
  filepath.Join ["/Volumes"; volume; strings.Join names "/"; file]
  = "/Volumes/" +:+ volume +:+ "/" +:+ strings.Join (nonEmpty names ++ [file]) "/".
Proof.
  intros Hvolume Hnames Hfile.
  pose proof (plain_or_empty_dir_file names file Hnames Hfile) as Hall.
  change (filepath.Join ["/Volumes"; volume; strings.Join names "/"; file])
    with (filepath.Clean
            ("/" +:+ "Volumes" +:+ "/" +:+ volume +:+ "/"
             +:+ (strings.Join names "/" +:+ "/" +:+ file))).
  rewrite Join_dir_file.
  rewrite <- (Join_cons volume) by by destruct names.
  rewrite <- (Join_cons "Volumes") by done.
  rewrite Clean_rooted_names by by repeat (constructor; [by right|]).
  rewrite !nonEmpty_cons_plain, nonEmpty_dir_file by (done || by repeat split).
  rewrite !Join_cons by (done || by destruct (nonEmpty names)).
  done.
Qed.

(** [filepath.Join] of the directory and the file alone. The directory
    has lost one leading separator; it still starts with one when the
    first of several names is empty, and the path is then rooted. *)
Lemma Join_bare_names names file :
  Forall (λ name, name = "" ∨ plainName name) names →
  plainName file →
  filepath.Join [strings.Join names "/"; file]
  = match names with
    | "" :: _ :: _ => "/" +:+ strings.Join (nonEmpty names ++ [file]) "/"
    | _ => strings.Join (nonEmpty names ++ [file]) "/"
    end.
Proof.
  intros Hnames Hfile.
  pose proof (plain_or_empty_dir_file names file Hnames Hfile) as Hall.
  pose proof (nonEmpty_dir_file names file Hfile) as Hfilter.
  assert (String.eqb file "" = false) as Hfile_ne
    by (apply String.eqb_neq, Hfile).
  assert (filepath.Join [""; file] = strings.Join [file] "/") as Hfile_only.
  { change (filepath.Join [""; file])
      with (if String.eqb file "" then ""
            else filepath.Clean (strings.Join [file] "/")).
    rewrite Hfile_ne, Clean_relative_names by done.
    by rewrite nonEmpty_cons_plain. }
  destruct names as [|first rest].
  - exact Hfile_only.
  - apply Forall_cons in Hnames as [[->|Hfirst] Hrest].
    + destruct rest as [|next rest].
      * rewrite nonEmpty_cons_empty. exact Hfile_only.
      * change (filepath.Join [strings.Join ("" :: next :: rest) "/"; file])
          with (filepath.Clean
                  ("/" +:+ (strings.Join (next :: rest) "/" +:+ "/" +:+ file))).
        rewrite Join_dir_file.
        rewrite Clean_rooted_names
          by exact (plain_or_empty_dir_file (next :: rest) file Hrest Hfile).
        by rewrite nonEmpty_cons_empty, (nonEmpty_dir_file (next :: rest)).
    + assert (String.eqb (strings.Join (first :: rest) "/") "" = false) as Hne.
      { apply String.eqb_neq. destruct Hfirst as (Hne & _).
        destruct first; [done|]. by destruct rest. }
      assert (match first :: rest with
              | "" :: _ :: _ =>
                  "/" +:+ strings.Join (nonEmpty (first :: rest) ++ [file]) "/"
              | _ => strings.Join (nonEmpty (first :: rest) ++ [file]) "/"
              end = strings.Join (nonEmpty (first :: rest) ++ [file]) "/") as ->.
      { destruct Hfirst as (Hne' & _). destruct first; [done|]. done. }
      cbn [filepath.Join]. rewrite Hne.
      change (strings.Join [strings.Join (first :: rest) "/"; file]
                (String filepath.Separator ""))
        with (strings.Join (first :: rest) "/" +:+ "/" +:+ file).
      rewrite Join_dir_file. cbn [app].
      apply Forall_cons in Hall as [_ Hall].
      rewrite Clean_relative_names by done.
      by rewrite <- Hfilter.
Qed.

(** X16: for a directory field made of folder names that are plain or
    empty (an empty name is what a trailing or a doubled token ["/:"]
    leaves) and a plain file name, the empty names are dropped and the
    path is the other names in order and the file, separated by ["/"]:
    below ["/"] for the volumes ["Macintosh HD"] and [":"], below
    ["/Volumes/<volume>"] for another plain volume. For the empty volume
    the path is bare when there is no name, one empty name or a plain
    first name, and it is rooted at ["/"] when the first of two or more
    names is empty, since only one leading separator is removed. *)
Lemma buildFilePath_plain_names names file volume volumeID :
  let loc := Location.mk (traktorDir names) file volume volumeID in
  let below := strings.Join (nonEmpty names ++ [file]) "/" in
  Forall (λ name, name = "" ∨ plainName name) names →
  plainName file →
  (volume = "Macintosh HD" ∨ volume = ":" → buildFilePath loc = "/" +:+ below)
  ∧ (plainName volume → volume ≠ "Macintosh HD" → volume ≠ ":" →
     buildFilePath loc = "/Volumes/" +:+ volume +:+ "/" +:+ below)
  ∧ (volume = "" →
     (names = [] ∨ names = [""]
      ∨ (∃ first rest, names = first :: rest ∧ plainName first) →
      buildFilePath loc = below)
     ∧ ((∃ next rest, names = "" :: next :: rest) →
        buildFilePath loc = "/" +:+ below)).
Proof.
  intros loc below Hnames Hfile.
  pose proof (dir_of_names names Hnames) as Hdir.
  unfold buildFilePath. cbn [loc Location.Dir Location.File Location.Volume].
  change (String os.PathSeparator "") with "/". rewrite Hdir.
  split; [|split].
  - intros [-> | ->]; by apply Join_root_names.
  - intros Hvolume Hn1 Hn2.
    assert (volume ≠ "") as Hn0 by apply Hvolume.
    apply String.eqb_neq in Hn0, Hn1, Hn2. rewrite Hn0, Hn1, Hn2. cbn [negb orb].
    by apply Join_volume_names.
  - intros ->. cbn [String.eqb negb].
    rewrite Join_bare_names by done. split.
    + intros [->|[->|(first & rest & -> & Hne & _)]]; [done..|].
      by destruct first.
    + by intros (next & rest & ->).
Qed.

(** A directory field as Traktor writes it, with the token at its end,
    and one that starts with two tokens. *)
Lemma buildFilePath_plain_names_witness :
  buildFilePath (Location.mk "/:Users/:dj/:Music/:" "x.mp3" "USB" "")
  = "/Volumes/USB/Users/dj/Music/x.mp3"
  ∧ buildFilePath (Location.mk "/:/:A" "b.mp3" "" "") = "/A/b.mp3".
Proof.
  assert (∀ name, name ≠ "" → name ≠ "." → name ≠ ".." →
                  hasSeparator name = false → name = "" ∨ plainName name) as Hplain
    by (by right).
  split.
  - destruct (buildFilePath_plain_names ["Users"; "dj"; "Music"; ""] "x.mp3" "USB" "")
      as (_ & Hvolume & _).
    + repeat (constructor; [(by left) || by apply Hplain|]). constructor.
    + by repeat split.
    + apply Hvolume; by repeat split.
  - destruct (buildFilePath_plain_names [""; "A"] "b.mp3" "" "")
      as (_ & _ & Hbare).
    + repeat (constructor; [(by left) || by apply Hplain|]). constructor.
    + by repeat split.
    + destruct (Hbare eq_refl) as [_ Hrooted].
      apply Hrooted. by exists "A", [].
Defined.




End plain_dir.

(** ** The playlist tree walk *)

(** Induction on a node with the hypothesis for all its subnodes. *)
Lemma Node_subnodes_ind (P : Node.t → Prop) :
  (∀ type_ name count subnodes playlist,
     Forall P subnodes → P (Node.mk type_ name count subnodes playlist)) →
  ∀ node, P node.
Proof.
  intros step.
  refine (fix IH (node : Node.t) : P node :=
            match node with
            | Node.mk type_ name count subnodes playlist =>
                step type_ name count subnodes playlist
                  ((fix all (l : list Node.t) : Forall P l :=
                      match l with
                      | [] => Forall_nil_2 P
                      | n :: l' => Forall_cons_2 P n l' (IH n) (all l')
                      end) subnodes)
            end).
Qed.

(** [extractPlaylists] is the node's own playlist, if any, followed by
    the playlists of its subnodes, in order, each walked below the path
    of the node. *)
Lemma extractPlaylists_unfold node parentPath trackMap :
  extractPlaylists node parentPath trackMap
  = ownPlaylists (Node.Type_ node) (Node.Name node) (Node.Playlist node)
      (currentPath parentPath (Node.Name node)) trackMap
    ++ flat_map
         (λ subnode,
            extractPlaylists subnode (currentPath parentPath (Node.Name node)) trackMap)
         (Node.Subnodes node).
Proof.
  destruct node as [type_ name count subnodes playlist]. reflexivity.
Qed.

(** The item loop keeps name and path, appends every key, and appends
    the pointers of the keys the map holds. *)
Lemma collectItems_spec items trackMap playlist :
  let key item := PrimaryKey.Key (PlaylistItem.PrimaryKey item) in
  collectItems items trackMap playlist
  = {| Playlist.Name := Playlist.Name playlist;
       Playlist.Path := Playlist.Path playlist;
       Playlist.TrackKeys := Playlist.TrackKeys playlist ++ map key items;
       Playlist.Tracks :=
         Playlist.Tracks playlist ++ omap (λ item, trackMap !! key item) items |}.
Proof.
  cbn zeta. revert playlist.
  induction items as [|item items IH]; intros [name path keys tracks]; cbn.
  - by rewrite !app_nil_r.
  - rewrite IH.
    destruct (trackMap !! PrimaryKey.Key (PlaylistItem.PrimaryKey item));
      cbn; by rewrite <- !app_assoc.
Qed.

(** What a node that is emitted contributes. *)
Lemma ownPlaylists_emitted name data path trackMap :
  let key item := PrimaryKey.Key (PlaylistItem.PrimaryKey item) in
  ownPlaylists "PLAYLIST" name (Some data) path trackMap
  = [ {| Playlist.Name := name; Playlist.Path := path;
         Playlist.TrackKeys := map key (PlaylistData.Items data);
         Playlist.Tracks :=
           omap (λ item, trackMap !! key item) (PlaylistData.Items data) |} ].
Proof. cbn. by rewrite collectItems_spec. Qed.

(** The output of a visited node is a segment of the output of the
    root. *)
Lemma visits_segment root rootPath node parentPath trackMap :
  visits root rootPath node parentPath →
  ∃ before after,
    extractPlaylists root rootPath trackMap
    = before ++ extractPlaylists node parentPath trackMap ++ after.
Proof.
  induction 1 as [node parentPath|node parentPath subnode d dPath Hin _ IH].
  - exists [], []. by rewrite app_nil_r.
  - destruct IH as (b & a & IH).
    apply list_elem_of_split in Hin as (l1 & l2 & Hsub).
    rewrite (extractPlaylists_unfold node), Hsub, flat_map_app.
    cbn [flat_map]. rewrite IH.
    set (path := currentPath parentPath (Node.Name node)).
    exists (ownPlaylists (Node.Type_ node) (Node.Name node) (Node.Playlist node)
              path trackMap
            ++ flat_map (λ subnode, extractPlaylists subnode path trackMap) l1 ++ b),
           (a ++ flat_map (λ subnode, extractPlaylists subnode path trackMap) l2).
    by rewrite <- !app_assoc.
Qed.

(** Every playlist of the output was emitted by some visited node. *)
Lemma extractPlaylists_origin root rootPath trackMap p :
  p ∈ extractPlaylists root rootPath trackMap →
  ∃ node parentPath,
    visits root rootPath node parentPath
    ∧ p ∈ ownPlaylists (Node.Type_ node) (Node.Name node) (Node.Playlist node)
            (currentPath parentPath (Node.Name node)) trackMap.
Proof.
  revert rootPath. induction root as [type_ name count subnodes playlist IH]
    using Node_subnodes_ind.
  intros rootPath. rewrite extractPlaylists_unfold. cbn [Node.Type_ Node.Name Node.Playlist Node.Subnodes].
  intros [Hown|Hsub]%elem_of_app.
  - eexists _, _. split; [apply visits_here|]. done.
  - apply list_elem_of_In, in_flat_map in Hsub as (subnode & Hin & Hp).
    apply list_elem_of_In in Hin, Hp.
    rewrite Forall_forall in IH.
    destruct (IH subnode Hin _ Hp) as (node & parentPath & Hv & Hown).
    exists node, parentPath. split; [|done].
    eapply visits_sub; [|exact Hv]. done.
Qed.

(** A subnode of a visited node is visited, below the path of that
    node. *)
Lemma visits_subnode root rootPath node parentPath subnode :
  visits root rootPath node parentPath →
  subnode ∈ Node.Subnodes node →
  visits root rootPath subnode (currentPath parentPath (Node.Name node)).
Proof.
  induction 1 as [node parentPath|node parentPath s d dPath Hin _ IH]; intros Hsub.
  - eapply visits_sub; [exact Hsub|apply visits_here].
  - eapply visits_sub; [exact Hin|]. by apply IH.
Qed.

(** C1, as stated, does not hold: a node that carries playlist data is
    only emitted when its type is ["PLAYLIST"]. The folder
    [sampleFolderWithPlaylist] has a PLAYLIST element with one entry and
    the walk emits nothing for it. *)
Lemma extractPlaylists_skips_untyped_playlist :
  ¬ (∀ node parentPath trackMap data,
       Node.Playlist node = Some data →
       PlaylistData.Items data ≠ [] →
       ∃ p, p ∈ extractPlaylists node parentPath trackMap
            ∧ Playlist.Name p = Node.Name node).
Proof.
  intros H.
  destruct (H sampleFolderWithPlaylist "" ∅ _ eq_refl) as (p & Hp & _).
  - discriminate.
  - cbn in Hp. by apply not_elem_of_nil in Hp.
Qed.

(** C1, amended: a visited node whose type is ["PLAYLIST"] and that has a
    PLAYLIST element is emitted as a playlist, whatever its subnodes; a
    node of another type or without that element emits nothing itself;
    and in every case all subnodes of the node are visited, their output
    being part of the output of the walk. *)
Theorem extractPlaylists_playlist_and_subnodes
    root rootPath trackMap node parentPath :
  let key item := PrimaryKey.Key (PlaylistItem.PrimaryKey item) in
  let path := currentPath parentPath (Node.Name node) in
  visits root rootPath node parentPath →
  (∀ data,
     Node.Type_ node = "PLAYLIST" → Node.Playlist node = Some data →
     {| Playlist.Name := Node.Name node; Playlist.Path := path;
        Playlist.TrackKeys := map key (PlaylistData.Items data);
        Playlist.Tracks :=
          omap (λ item, trackMap !! key item) (PlaylistData.Items data) |}
     ∈ extractPlaylists root rootPath trackMap)
  ∧ (Node.Type_ node ≠ "PLAYLIST" ∨ Node.Playlist node = None →
     ownPlaylists (Node.Type_ node) (Node.Name node) (Node.Playlist node)
       path trackMap = [])
  ∧ (∀ subnode,
       subnode ∈ Node.Subnodes node →
       visits root rootPath subnode path
       ∧ ∃ before after,
           extractPlaylists root rootPath trackMap
           = before ++ extractPlaylists subnode path trackMap ++ after)
  ∧ extractPlaylists node parentPath trackMap
    = ownPlaylists (Node.Type_ node) (Node.Name node) (Node.Playlist node)
        path trackMap
      ++ flat_map (λ subnode, extractPlaylists subnode path trackMap)
           (Node.Subnodes node).
Proof.
  intros key path Hv. repeat split.
  - intros data Hty Hpl.
    destruct (visits_segment _ _ _ _ trackMap Hv) as (b & a & ->).
    rewrite extractPlaylists_unfold, Hty, Hpl, ownPlaylists_emitted.
    apply elem_of_app. right. apply elem_of_app. left. apply list_elem_of_here.
  - intros [Hty | ->].
    + unfold ownPlaylists. apply String.eqb_neq in Hty. rewrite Hty.
      by destruct (Node.Playlist node).
    + done.
  - by apply visits_subnode.
  - apply visits_segment. by apply visits_subnode.
  - apply extractPlaylists_unfold.
Qed.

Lemma extractPlaylists_playlist_and_subnodes_witness :
  {| Playlist.Name := "Sets"; Playlist.Path := "Sets";
     Playlist.TrackKeys := ["Macintosh HD/:Music/:a.mp3"; "gone"];
     Playlist.Tracks := [] |}
  ∈ extractPlaylists sampleRoot "" ∅
  ∧ ∀ subnode, subnode ∈ Node.Subnodes sampleMixed → visits sampleRoot "" subnode "Sets".
Proof.
  assert (visits sampleRoot "" sampleMixed "") as Hv.
  { eapply visits_sub; [|apply visits_here]. cbn. apply list_elem_of_here. }
  destruct (extractPlaylists_playlist_and_subnodes sampleRoot "" ∅ sampleMixed "" Hv)
    as (Hown & _ & Hsub & _).
  split.
  - exact (Hown _ eq_refl eq_refl).
  - intros subnode Hin. exact (proj1 (Hsub subnode Hin)).
Defined.

(** C4: a node whose name is empty or ["$ROOT"] adds nothing to the path
    it is walked below; any other node has the path of its parent, a
    ["/"] and its own name, or its name alone below the empty path. The
    playlist a node emits carries that path, and its subnodes are walked
    below it. *)
Theorem currentPath_segments node parentPath trackMap :
  let name := Node.Name node in
  let path := currentPath parentPath name in
  (name = "" ∨ name = "$ROOT" → path = parentPath)
  ∧ (name ≠ "" → name ≠ "$ROOT" → parentPath = "" → path = name)
  ∧ (name ≠ "" → name ≠ "$ROOT" → parentPath ≠ "" →
     path = parentPath +:+ "/" +:+ name)
  ∧ (∀ p, p ∈ ownPlaylists (Node.Type_ node) name (Node.Playlist node) path trackMap →
          Playlist.Path p = path)
  ∧ extractPlaylists node parentPath trackMap
    = ownPlaylists (Node.Type_ node) name (Node.Playlist node) path trackMap
      ++ flat_map (λ subnode, extractPlaylists subnode path trackMap)
           (Node.Subnodes node).
Proof.
  intros name path. subst path. unfold currentPath. repeat split.
  - intros [-> | ->]; reflexivity.
  - intros H1 H2 ->. apply String.eqb_neq in H1, H2. by rewrite H1, H2.
  - intros H1 H2 H3. apply String.eqb_neq in H1, H2, H3. by rewrite H1, H2, H3.
  - intros p. unfold ownPlaylists.
    destruct (Node.Playlist node) as [data|]; [|by intros ?%not_elem_of_nil].
    destruct (String.eqb (Node.Type_ node) "PLAYLIST"); [|by intros ?%not_elem_of_nil].
    rewrite collectItems_spec. by intros ->%list_elem_of_singleton.
  - apply extractPlaylists_unfold.
Qed.

Lemma currentPath_segments_witness :
  currentPath "" (Node.Name sampleRoot) = ""
  ∧ currentPath "" (Node.Name sampleMixed) = "Sets"
  ∧ currentPath "Sets" "Friday" = "Sets/Friday".
Proof.
  split; [|split].
  - apply (proj1 (currentPath_segments sampleRoot "" ∅)). by right.
  - destruct (currentPath_segments sampleMixed "" ∅) as (_ & H & _).
    apply H; [discriminate..|reflexivity].
  - destruct (currentPath_segments
                (Node.mk "PLAYLIST" "Friday" 0 [] None) "Sets" ∅) as (_ & _ & H & _).
    apply H; discriminate.
Defined.

(** The resolved list is never longer than the list it is resolved
    from. *)
Lemma length_omap_le {A B} (f : A → option B) (l : list A) :
  (length (omap f l) ≤ length l)%nat.
Proof.
  induction l as [|x l IH]; cbn; [lia|]. destruct (f x); cbn; lia.
Qed.

(** Dropping the elements [f] rejects before resolving changes
    nothing. *)
Lemma omap_filter_is_Some {A B} (f : A → option B) (l : list A) :
  omap f (filter (λ x, is_Some (f x)) l) = omap f l.
Proof.
  induction l as [|x l IH]; [done|]. rewrite filter_cons.
  destruct (decide (is_Some (f x))) as [[y Hy]|Hn]; cbn.
  - by rewrite Hy, IH.
  - rewrite IH. destruct (f x) as [y|] eqn:Hy; [|done].
    exfalso. apply Hn. eauto.
Qed.

(** Resolving a mapped list. *)
Lemma omap_map {A B C} (g : A → B) (f : B → option C) (l : list A) :
  omap f (map g l) = omap (λ x, f (g x)) l.
Proof. induction l as [|x l IH]; [done|]. cbn. by rewrite IH. Qed.

(** A playlist of the output has the keys of the items of the node it
    comes from, and those of them the map resolves as tracks. *)
Lemma extractPlaylists_keys_and_tracks root rootPath trackMap p :
  p ∈ extractPlaylists root rootPath trackMap →
  ∃ node parentPath data,
    visits root rootPath node parentPath
    ∧ Node.Playlist node = Some data
    ∧ Playlist.TrackKeys p
      = map (λ item, PrimaryKey.Key (PlaylistItem.PrimaryKey item))
          (PlaylistData.Items data)
    ∧ Playlist.Tracks p = omap (λ key, trackMap !! key) (Playlist.TrackKeys p).
Proof.
  intros Hp.
  destruct (extractPlaylists_origin _ _ _ _ Hp) as (node & parentPath & Hv & Hown).
  unfold ownPlaylists in Hown.
  destruct (Node.Playlist node) as [data|] eqn:Hdata;
    [|by apply not_elem_of_nil in Hown].
  destruct (String.eqb (Node.Type_ node) "PLAYLIST");
    [|by apply not_elem_of_nil in Hown].
  rewrite collectItems_spec in Hown. apply list_elem_of_singleton in Hown.
  cbn in Hown. exists node, parentPath, data.
  split; [done|]. split; [done|]. subst p. cbn. by rewrite omap_map.
Qed.

(** C5: every playlist of the output comes from a visited node with a
    PLAYLIST element; its key list is the list of the keys of the items
    of that element, in their order; its track list is the key list
    resolved through the map, the keys the map does not hold being
    dropped; so it is no longer than the key list and holds exactly the
    pointers the map gives for keys of the key list. *)
Theorem extractPlaylists_resolution root rootPath trackMap p :
  p ∈ extractPlaylists root rootPath trackMap →
  ∃ node parentPath data,
    visits root rootPath node parentPath
    ∧ Node.Playlist node = Some data
    ∧ Playlist.TrackKeys p
      = map (λ item, PrimaryKey.Key (PlaylistItem.PrimaryKey item))
          (PlaylistData.Items data)
    ∧ Playlist.Tracks p = omap (λ key, trackMap !! key) (Playlist.TrackKeys p)
    ∧ Playlist.Tracks p
      = omap (λ key, trackMap !! key)
          (filter (λ key, is_Some (trackMap !! key)) (Playlist.TrackKeys p))
    ∧ (length (Playlist.Tracks p) ≤ length (Playlist.TrackKeys p))%nat
    ∧ ∀ track, track ∈ Playlist.Tracks p
               ↔ ∃ key, key ∈ Playlist.TrackKeys p ∧ trackMap !! key = Some track.
Proof.
  intros Hp.
  destruct (extractPlaylists_keys_and_tracks _ _ _ _ Hp)
    as (node & parentPath & data & Hv & Hdata & Hkeys & Htracks).
  exists node, parentPath, data. split; [done|]. split; [done|].
  split; [done|]. split; [done|]. split; [|split].
  - by rewrite omap_filter_is_Some.
  - rewrite Htracks. apply length_omap_le.
  - intros track. rewrite Htracks. apply list_elem_of_omap.
Qed.

Lemma extractPlaylists_resolution_witness :
  ∃ p, p ∈ extractPlaylists sampleRoot "" {[ "Macintosh HD/:Music/:a.mp3" := 2 ]}
       ∧ Playlist.TrackKeys p = ["Macintosh HD/:Music/:a.mp3"; "gone"]
       ∧ Playlist.Tracks p = [2]
       ∧ (length (Playlist.Tracks p) ≤ length (Playlist.TrackKeys p))%nat.
Proof.
  set (trackMap := ({[ "Macintosh HD/:Music/:a.mp3" := 2 ]} : gmap string TrackPtr)).
  set (p := {| Playlist.Name := "Sets"; Playlist.Path := "Sets";
               Playlist.TrackKeys := ["Macintosh HD/:Music/:a.mp3"; "gone"];
               Playlist.Tracks := [2] |}).
  assert (p ∈ extractPlaylists sampleRoot "" trackMap) as Hp.
  { vm_compute. apply list_elem_of_here. }
  destruct (extractPlaylists_resolution sampleRoot "" trackMap p Hp)
    as (_ & _ & _ & _ & _ & _ & _ & _ & Hlen & _).
  exists p. repeat split; [exact Hp | exact Hlen].
Defined.

(** ** Building the index *)

Section addEntry_loop.
Implicit Types (entries : list Entry.t) (c : TraktorCollection.t).

Lemma convertEntryToTrack_key (entry : Entry.t) :
  Track.PrimaryKey (convertEntryToTrack entry) = buildPrimaryKey (Entry.Location entry).
Proof. reflexivity. Qed.

(** The loop appends the converted entries, in order. *)
Lemma addEntry_loop_Tracks entries c :
  TraktorCollection.Tracks (fold_left addEntry entries c)
  = TraktorCollection.Tracks c ++ map convertEntryToTrack entries.
Proof.
  revert c. induction entries as [|entry entries IH]; intros c; cbn.
  - by rewrite app_nil_r.
  - rewrite IH. cbn. by rewrite <- app_assoc.
Qed.

(** Entries with other keys leave the map entry of a key alone. *)
Lemma addEntry_loop_trackMap_other entries c key :
  (∀ entry, entry ∈ entries → buildPrimaryKey (Entry.Location entry) ≠ key) →
  TraktorCollection.trackMap (fold_left addEntry entries c) !! key
  = TraktorCollection.trackMap c !! key.
Proof.
  revert c. induction entries as [|entry entries IH]; intros c Hne; cbn; [done|].
  rewrite IH.
  - cbn. apply lookup_insert_ne. apply Hne, list_elem_of_here.
  - intros e He. apply Hne. by apply list_elem_of_further.
Qed.

(** The last entry with a key owns the map entry of that key. *)
Lemma addEntry_loop_trackMap_last before entry after c :
  (∀ e, e ∈ after → buildPrimaryKey (Entry.Location e) ≠ buildPrimaryKey (Entry.Location entry)) →
  TraktorCollection.trackMap (fold_left addEntry (before ++ entry :: after) c)
    !! buildPrimaryKey (Entry.Location entry)
  = Some (length (TraktorCollection.Tracks c) + length before)%nat.
Proof.
  intros Hne. rewrite fold_left_app. cbn [fold_left].
  rewrite addEntry_loop_trackMap_other by done.
  cbn. rewrite lookup_insert_eq. f_equal.
  rewrite addEntry_loop_Tracks, !length_app, length_map. cbn. lia.
Qed.

End addEntry_loop.

(** A position in a list splits the list around it. *)
Lemma lookup_split_length {A} (l : list A) (i : nat) (x : A) :
  l !! i = Some x → ∃ l1 l2, l = l1 ++ x :: l2 ∧ length l1 = i.
Proof.
  intros H. exists (take i l), (drop (S i) l). split.
  - by rewrite <- (take_drop_middle l i x H) at 1.
  - rewrite length_take. apply lookup_lt_Some in H. lia.
Qed.

(** C6: when the file opens and decodes, the parse succeeds and the
    tracks of the collection are the converted entries of the document,
    as many and in the same order. *)
Theorem ParseCollectionFromPath_tracks (w : World) (path file : string) (nml : NML.t) :
  Open w path = Some file →
  Decode w file = Some nml →
  ∃ c,
    ParseCollectionFromPath w path = (Some c, None)
    ∧ length (TraktorCollection.Tracks c)
      = length (Collection.Tracks (NML.Collection nml))
    ∧ (∀ i, TraktorCollection.Tracks c !! i
            = convertEntryToTrack <$> Collection.Tracks (NML.Collection nml) !! i)
    ∧ TraktorCollection.Tracks c
      = map convertEntryToTrack (Collection.Tracks (NML.Collection nml)).
Proof.
  intros Hopen Hdecode. exists (buildCollection nml).
  unfold ParseCollectionFromPath. rewrite Hopen, Hdecode.
  assert (TraktorCollection.Tracks (buildCollection nml)
          = map convertEntryToTrack (Collection.Tracks (NML.Collection nml))) as Heq.
  { unfold buildCollection. cbn. by rewrite addEntry_loop_Tracks. }
  split; [done|]. rewrite Heq. split; [|split].
  - apply length_map.
  - intros i. apply list_lookup_fmap.
  - done.
Qed.

Lemma ParseCollectionFromPath_tracks_witness :
  ∃ c,
    ParseCollectionFromPath sampleWorld
      "/Users/dj/Documents/Native Instruments/Traktor 4.4.0/collection.nml"
    = (Some c, None)
    ∧ length (TraktorCollection.Tracks c) = 3%nat.
Proof.
  destruct (ParseCollectionFromPath_tracks sampleWorld
              "/Users/dj/Documents/Native Instruments/Traktor 4.4.0/collection.nml"
              "<NML/>" sampleNML eq_refl eq_refl) as (c & Hc & Hlen & _).
  exists c. split; [exact Hc | exact Hlen].
Defined.

(** C8: after a successful parse, the key of an entry leads to the last
    entry of the document with that key: [GetTrackByKey] returns the
    pointer to the track converted from it. *)
Theorem GetTrackByKey_last_entry (w : World) (path file : string) (nml : NML.t)
    (i : nat) (entry : Entry.t) :
  let entries := Collection.Tracks (NML.Collection nml) in
  let key := buildPrimaryKey (Entry.Location entry) in
  Open w path = Some file →
  Decode w file = Some nml →
  entries !! i = Some entry →
  (∀ j later, (i < j)%nat → entries !! j = Some later →
              buildPrimaryKey (Entry.Location later) ≠ key) →
  ∃ c,
    ParseCollectionFromPath w path = (Some c, None)
    ∧ GetTrackByKey c key = Some i
    ∧ derefTrack c i = Some (convertEntryToTrack entry).
Proof.
  intros entries key Hopen Hdecode Hi Hlast. exists (buildCollection nml).
  unfold ParseCollectionFromPath. rewrite Hopen, Hdecode. split; [done|].
  destruct (lookup_split_length _ _ _ Hi) as (before & after & Hsplit & Hlen).
  split.
  - unfold GetTrackByKey, buildCollection. cbn. fold entries. rewrite Hsplit.
    unfold key in *.
    rewrite addEntry_loop_trackMap_last; [cbn; by rewrite Hlen|].
    intros e [k Hk]%list_elem_of_lookup.
    apply (Hlast (length before + S k)%nat); [lia|].
    rewrite Hsplit, lookup_app_r by lia.
    replace (length before + S k - length before)%nat with (S k) by lia. done.
  - unfold derefTrack, buildCollection. cbn. rewrite addEntry_loop_Tracks. cbn.
    rewrite list_lookup_fmap. fold entries. by rewrite Hi.
Qed.

Lemma GetTrackByKey_last_entry_witness :
  ∃ c,
    ParseCollectionFromPath sampleWorld
      "/Users/dj/Documents/Native Instruments/Traktor 4.4.0/collection.nml"
    = (Some c, None)
    ∧ GetTrackByKey c "Macintosh HD/:Music/:a.mp3" = Some 2%nat
    ∧ Track.Title <$> derefTrack c 2 = Some "second".
Proof.
  destruct (GetTrackByKey_last_entry sampleWorld
              "/Users/dj/Documents/Native Instruments/Traktor 4.4.0/collection.nml"
              "<NML/>" sampleNML 2
              (sampleEntry "A" "second" "Macintosh HD" "/:Mus" "ic/:a.mp3")
              eq_refl eq_refl eq_refl) as (c & Hc & Hkey & Hderef).
  - intros [|[|[|j]]] later Hj Hlater; try lia; discriminate.
  - exists c. split; [exact Hc|]. split; [exact Hkey|]. by rewrite Hderef.
Defined.

(** ** Finding a playlist by name *)

Lemma findPlaylistByName_Some playlists i name k :
  findPlaylistByName playlists i name = Some k →
  (i ≤ k)%nat
  ∧ (∃ p, playlists !! (k - i)%nat = Some p ∧ Playlist.Name p = name)
  ∧ ∀ j q, (j < k - i)%nat → playlists !! j = Some q → Playlist.Name q ≠ name.
Proof.
  revert i. induction playlists as [|p playlists IH]; intros i; cbn; [done|].
  destruct (String.eqb_spec (Playlist.Name p) name) as [Heq|Hne].
  - intros [= <-]. rewrite Nat.sub_diag. split; [lia|]. split; [by exists p|].
    intros j q Hj. lia.
  - intros Hk. destruct (IH _ Hk) as (Hle & (q & Hq & Hname) & Hfirst).
    split; [lia|]. replace (k - i)%nat with (S (k - S i)) by lia.
    split; [by exists q|].
    intros [|j] q' Hj; cbn; [by intros [= <-]|].
    apply Hfirst. lia.
Qed.

Lemma findPlaylistByName_None playlists i name :
  findPlaylistByName playlists i name = None →
  ∀ p, p ∈ playlists → Playlist.Name p ≠ name.
Proof.
  revert i. induction playlists as [|q playlists IH]; intros i; cbn.
  - by intros _ p ?%not_elem_of_nil.
  - destruct (String.eqb_spec (Playlist.Name q) name) as [Heq|Hne]; [done|].
    intros Hnone p [->|Hin]%elem_of_cons; [done|]. by eapply IH.
Qed.

(** C9: [GetPlaylistByName] compares names byte for byte. When it
    returns a pointer, the playlist there has the name asked for and no
    playlist before it has; when it returns nil, no playlist has that
    name. *)
Theorem GetPlaylistByName_first_match (c : TraktorCollection.t) (name : string) :
  (∀ i, GetPlaylistByName c name = Some i →
        (∃ p, derefPlaylist c i = Some p ∧ Playlist.Name p = name)
        ∧ ∀ j q, (j < i)%nat → derefPlaylist c j = Some q → Playlist.Name q ≠ name)
  ∧ (GetPlaylistByName c name = None →
     ∀ p, p ∈ TraktorCollection.Playlists c → Playlist.Name p ≠ name)
  ∧ ((∃ p, p ∈ TraktorCollection.Playlists c ∧ Playlist.Name p = name) →
     ∃ i, GetPlaylistByName c name = Some i).
Proof.
  unfold GetPlaylistByName, derefPlaylist. split; [|split].
  - intros i Hi. apply findPlaylistByName_Some in Hi as (_ & Hp & Hfirst).
    rewrite Nat.sub_0_r in Hp, Hfirst. done.
  - apply findPlaylistByName_None.
  - intros (p & Hin & Hname).
    destruct (findPlaylistByName _ 0 name) as [i|] eqn:Hfind; [by exists i|].
    by destruct (findPlaylistByName_None _ _ _ Hfind p Hin).
Qed.

Lemma GetPlaylistByName_first_match_witness :
  let c :=
    {| TraktorCollection.Version := "19"; TraktorCollection.Tracks := [];
       TraktorCollection.Playlists :=
         [ Playlist.mk "Warmup" "Warmup" [] [];
           Playlist.mk "Sets" "Sets" ["k1"] [];
           Playlist.mk "Sets" "Old/Sets" ["k2"] [] ];
       TraktorCollection.trackMap := ∅ |} in
  GetPlaylistByName c "Sets" = Some 1%nat
  ∧ (∃ p, derefPlaylist c 1 = Some p ∧ Playlist.Name p = "Sets")
  ∧ ∀ p, p ∈ TraktorCollection.Playlists c → Playlist.Name p ≠ "sets".
Proof.
  intros c.
  destruct (GetPlaylistByName_first_match c "Sets") as (Hsome & _).
  destruct (GetPlaylistByName_first_match c "sets") as (_ & Hnone & _).
  split; [reflexivity|]. split.
  - exact (proj1 (Hsome 1%nat eq_refl)).
  - exact (Hnone eq_refl).
Defined.

(** ** The lazy loader *)

(** A parse gives a collection and no error, or an error and no
    collection. *)
Lemma ParseCollection_result (w : World) :
  (∃ c, ParseCollection w = (Some c, None))
  ∨ (∃ e, ParseCollection w = (None, Some e)).
Proof.
  unfold ParseCollection, ParseCollectionFromPath.
  destruct (String.eqb (collectionLocation w) ""); [right; eauto|].
  destruct (Open w _) as [file|]; [|right; eauto].
  destruct (Decode w file); [left|right]; eauto.
Qed.

(** Unfolds the four loader functions for a case analysis on the call. *)
Local Ltac loader_cases c :=
  destruct c; cbn;
  unfold GetSortedPlaylistNames, GetPlaylists, LoadCollection,
    LoaderGetPlaylistByName, loadOnce.

(** The state every first call leaves behind. *)
Lemma call_first (w : World) (c : Call) (g : Globals) :
  tcLoaded g = false →
  snd (call w c g)
  = {| tc := fst (ParseCollection w); tcLoaded := true; parses := S (parses g) |}.
Proof.
  intros Hg.
  loader_cases c; rewrite Hg; cbn; by destruct (fst (ParseCollection w)).
Qed.

(** Once loaded, a call changes nothing and does not look at the
    world. *)
Lemma call_loaded (w w' : World) (c : Call) (g : Globals) :
  tcLoaded g = true →
  snd (call w c g) = g ∧ call w c g = call w' c g.
Proof.
  intros Hg.
  loader_cases c; rewrite Hg; cbn; by destruct (tc g).
Qed.

Lemma exec_loaded (calls : list (World * Call)) (g : Globals) :
  tcLoaded g = true → snd (exec calls g) = g.
Proof.
  intros Hg. induction calls as [|[w c] calls IH]; [done|]. cbn.
  pose proof (call_loaded w w c g Hg) as [Hsnd _].
  destruct (call w c g) as [r g']. cbn in Hsnd. subst g'.
  by destruct (exec calls g).
Qed.

Lemma run_loaded (calls : list (World * Call)) (g : Globals) :
  tcLoaded g = true → snd (run calls g) = g.
Proof.
  intros Hg. induction calls as [|[w c] calls IH]; [done|]. cbn.
  pose proof (call_loaded w w c g Hg) as [Hsnd _].
  destruct (call w c g) as [[v|] g']; cbn in Hsnd; subst g'; [|done].
  by destruct (run calls g).
Qed.

(** C7: the first loader call, whichever it is, parses once and caches
    what the parse gave, a collection or nil; from then on every call
    leaves the cache as it is, does not parse and does not depend on the
    world it is made in. So a sequence of calls that is not empty has
    parsed exactly once when it ends, whether or not the panics on the
    way are recovered from. *)
Theorem loader_parses_once (w : World) (c : Call) (rest : list (World * Call)) :
  let loaded :=
    {| tc := fst (ParseCollection w); tcLoaded := true; parses := 1 |} in
  snd (call w c initial) = loaded
  ∧ snd (exec ((w, c) :: rest) initial) = loaded
  ∧ snd (run ((w, c) :: rest) initial) = loaded
  ∧ (∀ w1 w2 c', snd (call w1 c' loaded) = loaded
                 ∧ call w1 c' loaded = call w2 c' loaded)
  ∧ parses (snd (exec [] initial)) = 0%nat
  ∧ parses (snd (run [] initial)) = 0%nat.
Proof.
  intros loaded.
  assert (snd (call w c initial) = loaded) as Hfirst by by apply call_first.
  split; [done|]. split; [|split; [|split; [|done]]].
  - cbn [exec]. destruct (call w c initial) as [r g]. cbn in Hfirst. subst g.
    pose proof (exec_loaded rest loaded eq_refl) as H.
    by destruct (exec rest loaded).
  - cbn [run]. destruct (call w c initial) as [[v|] g]; cbn in Hfirst; subst g; [|done].
    pose proof (run_loaded rest loaded eq_refl) as H.
    by destruct (run rest loaded).
  - intros w1 w2 c'. by apply call_loaded.
Qed.

(** C10 does not hold of the code: when the parse fails, the first
    loader call stores the nil pointer, marks the cache as loaded and
    then reads a field through that pointer, and so does every later
    call. *)
Theorem loader_failed_parse_panics (w w' : World) (c c' : Call) :
  let failed := {| tc := None; tcLoaded := true; parses := 1 |} in
  fst (ParseCollection w) = None →
  call w c initial = (NilDereference, failed)
  ∧ call w' c' failed = (NilDereference, failed).
Proof.
  intros failed Hfail. split.
  - loader_cases c; cbn; by rewrite Hfail.
  - by destruct c'.
Qed.

Lemma loader_failed_parse_panics_witness :
  ParseCollection emptyWorld = (None, Some ErrNotExist)
  ∧ call emptyWorld CallGetPlaylists initial
    = (NilDereference, {| tc := None; tcLoaded := true; parses := 1 |})
  ∧ call sampleWorld CallLoadCollection {| tc := None; tcLoaded := true; parses := 1 |}
    = (NilDereference, {| tc := None; tcLoaded := true; parses := 1 |}).
Proof.
  split; [reflexivity|].
  exact (loader_failed_parse_panics emptyWorld sampleWorld
           CallGetPlaylists CallLoadCollection eq_refl).
Defined.

(** ** Pointers of playlists into the track storage *)

(** Every pointer the map of a parsed collection holds is the address
    of a track of the collection, and that track has the key. *)
Lemma addEntry_loop_trackMap_sound (entries : list Entry.t) (c : TraktorCollection.t) :
  (∀ key i, TraktorCollection.trackMap c !! key = Some i →
            ∃ t, TraktorCollection.Tracks c !! i = Some t ∧ Track.PrimaryKey t = key) →
  ∀ key i,
    TraktorCollection.trackMap (fold_left addEntry entries c) !! key = Some i →
    ∃ t, TraktorCollection.Tracks (fold_left addEntry entries c) !! i = Some t
         ∧ Track.PrimaryKey t = key.
Proof.
  revert c. induction entries as [|entry entries IH]; intros c Hc; [done|].
  cbn [fold_left]. apply IH. intros key i. cbn.
  destruct (decide (buildPrimaryKey (Entry.Location entry) = key)) as [<-|Hne].
  - rewrite lookup_insert_eq. intros [= <-].
    exists (convertEntryToTrack entry). split; [|done].
    rewrite length_app. cbn.
    rewrite lookup_app_r by lia.
    by replace (length (TraktorCollection.Tracks c) + 1 - 1
                - length (TraktorCollection.Tracks c))%nat with 0%nat by lia.
  - rewrite lookup_insert_ne by done. intros Hi.
    destruct (Hc key i Hi) as (t & Ht & Hkey).
    exists t. split; [|done]. by apply lookup_app_l_Some.
Qed.

(** X7: in a parsed collection, every pointer of a playlist is the
    address of a track whose key is in the key list of the playlist, the
    one [GetTrackByKey] gives for that key; so no track with an
    unresolved key is in the resolved list. *)
Lemma buildCollection_playlist_tracks (nml : NML.t) (p : Playlist.t) (track : TrackPtr) :
  let c := buildCollection nml in
  p ∈ TraktorCollection.Playlists c →
  track ∈ Playlist.Tracks p →
  ∃ t, derefTrack c track = Some t
       ∧ Track.PrimaryKey t ∈ Playlist.TrackKeys p
       ∧ GetTrackByKey c (Track.PrimaryKey t) = Some track.
Proof.
  intros c Hp Htrack.
  destruct (extractPlaylists_keys_and_tracks _ _ _ _ Hp)
    as (_ & _ & _ & _ & _ & _ & Htracks).
  rewrite Htracks in Htrack.
  apply list_elem_of_omap in Htrack as (key & Hkey & Hlookup).
  destruct (addEntry_loop_trackMap_sound _ _ (λ k i H, match lookup_empty_Some _ _ H with end)
              key track Hlookup)
    as (t & Ht & <-).
  exists t. done.
Qed.

Lemma buildCollection_playlist_tracks_witness :
  ∃ t, derefTrack (buildCollection sampleNML) 2 = Some t
       ∧ Track.PrimaryKey t = "Macintosh HD/:Music/:a.mp3"
       ∧ GetTrackByKey (buildCollection sampleNML) (Track.PrimaryKey t) = Some 2%nat.
Proof.
  set (p := {| Playlist.Name := "Sets"; Playlist.Path := "Sets";
               Playlist.TrackKeys := ["Macintosh HD/:Music/:a.mp3"; "gone"];
               Playlist.Tracks := [2%nat] |}).
  assert (p ∈ TraktorCollection.Playlists (buildCollection sampleNML)) as Hp.
  { vm_compute. apply list_elem_of_here. }
  destruct (buildCollection_playlist_tracks sampleNML p 2%nat Hp (list_elem_of_here _ _))
    as (t & Ht & Hkey & Hlookup).
  exists t. split; [exact Ht|]. split; [|exact Hlookup].
  vm_compute in Ht. injection Ht as <-. reflexivity.
Defined.

(** * Further properties *)

(** ** Finding a playlist by path *)

Lemma findPlaylistByPath_Some playlists i path k :
  findPlaylistByPath playlists i path = Some k →
  (i ≤ k)%nat
  ∧ (∃ p, playlists !! (k - i)%nat = Some p ∧ Playlist.Path p = path)
  ∧ ∀ j q, (j < k - i)%nat → playlists !! j = Some q → Playlist.Path q ≠ path.
Proof.
  revert i. induction playlists as [|p playlists IH]; intros i; cbn; [done|].
  destruct (String.eqb_spec (Playlist.Path p) path) as [Heq|Hne].
  - intros [= <-]. rewrite Nat.sub_diag. split; [lia|]. split; [by exists p|].
    intros j q Hj. lia.
  - intros Hk. destruct (IH _ Hk) as (Hle & (q & Hq & Hpath) & Hfirst).
    split; [lia|]. replace (k - i)%nat with (S (k - S i)) by lia.
    split; [by exists q|].
    intros [|j] q' Hj; cbn; [by intros [= <-]|].
    apply Hfirst. lia.
Qed.

Lemma findPlaylistByPath_None playlists i path :
  findPlaylistByPath playlists i path = None →
  ∀ p, p ∈ playlists → Playlist.Path p ≠ path.
Proof.
  revert i. induction playlists as [|q playlists IH]; intros i; cbn.
  - by intros _ p ?%not_elem_of_nil.
  - destruct (String.eqb_spec (Playlist.Path q) path) as [Heq|Hne]; [done|].
    intros Hnone p [->|Hin]%elem_of_cons; [done|]. by eapply IH.
Qed.

(** X1: [GetPlaylistByPath] returns the first playlist, in the order of
    the collection, whose path is byte for byte the one asked for, and
    nil exactly when no playlist has that path. *)
Theorem GetPlaylistByPath_first_match (c : TraktorCollection.t) (path : string) :
  (∀ i, GetPlaylistByPath c path = Some i →
        (∃ p, derefPlaylist c i = Some p ∧ Playlist.Path p = path)
        ∧ ∀ j q, (j < i)%nat → derefPlaylist c j = Some q → Playlist.Path q ≠ path)
  ∧ (GetPlaylistByPath c path = None ↔
     ∀ p, p ∈ TraktorCollection.Playlists c → Playlist.Path p ≠ path).
Proof.
  unfold GetPlaylistByPath, derefPlaylist. split; [|split].
  - intros i Hi. apply findPlaylistByPath_Some in Hi as (_ & Hp & Hfirst).
    rewrite Nat.sub_0_r in Hp, Hfirst. done.
  - apply findPlaylistByPath_None.
  - intros Hnone.
    destruct (findPlaylistByPath _ 0 path) as [i|] eqn:Hfind; [|done].
    apply findPlaylistByPath_Some in Hfind as (_ & (p & Hp & Hpath) & _).
    destruct (Hnone p); [|done]. by eapply list_elem_of_lookup_2.
Qed.

Lemma GetPlaylistByPath_first_match_witness :
  GetPlaylistByPath (buildCollection sampleNML) "Sets/Friday" = Some 1%nat
  ∧ (∃ p, derefPlaylist (buildCollection sampleNML) 1 = Some p
          ∧ Playlist.Path p = "Sets/Friday")
  ∧ GetPlaylistByPath (buildCollection sampleNML) "Friday" = None.
Proof.
  destruct (GetPlaylistByPath_first_match (buildCollection sampleNML) "Sets/Friday")
    as (Hsome & _).
  destruct (GetPlaylistByPath_first_match (buildCollection sampleNML) "Friday")
    as (_ & Hnone).
  split; [reflexivity|]. split.
  - exact (proj1 (Hsome 1%nat eq_refl)).
  - apply Hnone. intros p Hp. vm_compute in Hp.
    apply elem_of_cons in Hp as [->|Hp]; [discriminate|].
    apply list_elem_of_singleton in Hp as ->. discriminate.
Defined.

(** ** The order of the walk *)

Lemma ownPlaylists_names type_ name playlist path trackMap :
  map Playlist.Name (ownPlaylists type_ name playlist path trackMap)
  = if String.eqb type_ "PLAYLIST"
       && match playlist with Some _ => true | None => false end
    then [name] else [].
Proof.
  unfold ownPlaylists. destruct playlist as [data|]; [|by rewrite andb_false_r].
  destruct (String.eqb type_ "PLAYLIST"); [|done].
  by rewrite collectItems_spec.
Qed.

(** X2: the names of the playlists the walk returns are the names of the
    nodes it emits, in pre-order: a node before its subnodes, the
    subnodes from first to last. In particular there are as many
    playlists as there are nodes of type ["PLAYLIST"] with a PLAYLIST
    element. *)
Theorem extractPlaylists_preorder (root : Node.t) (rootPath : string)
    (trackMap : gmap string TrackPtr) :
  map Playlist.Name (extractPlaylists root rootPath trackMap)
  = map Node.Name (List.filter emitted (preorder root))
  ∧ length (extractPlaylists root rootPath trackMap)
    = length (List.filter emitted (preorder root)).
Proof.
  assert (map Playlist.Name (extractPlaylists root rootPath trackMap)
          = map Node.Name (List.filter emitted (preorder root))) as Hnames.
  { revert rootPath.
    induction root as [type_ name count subnodes playlist IH] using Node_subnodes_ind.
    intros rootPath. rewrite extractPlaylists_unfold, map_app, ownPlaylists_names.
    cbn [Node.Type_ Node.Name Node.Playlist Node.Subnodes preorder List.filter].
    fold preorder. unfold emitted at 1.
    cbn [Node.Type_ Node.Name Node.Playlist Node.Subnodes].
    set (path := currentPath rootPath name).
    assert (map Playlist.Name
              (flat_map (λ subnode, extractPlaylists subnode path trackMap) subnodes)
            = map Node.Name (List.filter emitted (flat_map preorder subnodes)))
      as ->.
    { induction IH as [|subnode subnodes Hsub _ IHsubs]; [done|].
      cbn [flat_map]. by rewrite map_app, List.filter_app, map_app, Hsub, IHsubs. }
    by destruct (String.eqb type_ "PLAYLIST" && _). }
  split; [done|].
  by rewrite <- (length_map Playlist.Name), Hnames, length_map.
Qed.

(** ** The path of a playlist *)

Lemma currentPath_joined (segments : list string) (name : string) :
  Forall (λ segment, namesSegment segment = true) segments →
  currentPath (strings.Join segments "/") name
  = strings.Join (segments ++ List.filter namesSegment [name]) "/".
Proof.
  intros Hsegments. unfold currentPath. fold (namesSegment name).
  cbn [List.filter]. destruct (namesSegment name); [|by rewrite app_nil_r].
  destruct segments as [|first segments]; [done|].
  assert (String.eqb (strings.Join (first :: segments) "/") "" = false) as ->.
  { apply String.eqb_neq. apply Forall_cons in Hsegments as [Hfirst _].
    destruct first; [done|]. by destruct segments. }
  apply (Join_dir_file (first :: segments)).
Qed.

Lemma route_path (root : Node.t) (names : list string) (node : Node.t)
    (segments : list string) (trackMap : gmap string TrackPtr) (p : Playlist.t) :
  route root names node →
  Forall (λ segment, namesSegment segment = true) segments →
  p ∈ ownPlaylists (Node.Type_ node) (Node.Name node) (Node.Playlist node)
        (strings.Join (segments ++ List.filter namesSegment names) "/") trackMap →
  p ∈ extractPlaylists root (strings.Join segments "/") trackMap.
Proof.
  intros Hroute. revert segments.
  induction Hroute as [node|node subnode names d Hin _ IH]; intros segments Hsegments Hp.
  - rewrite extractPlaylists_unfold, currentPath_joined by done.
    apply elem_of_app. by left.
  - rewrite extractPlaylists_unfold, currentPath_joined by done.
    apply elem_of_app. right.
    apply list_elem_of_In, in_flat_map. exists subnode.
    split; [by apply list_elem_of_In|]. apply list_elem_of_In.
    apply IH.
    + apply Forall_app. split; [done|].
      cbn [List.filter]. destruct (namesSegment (Node.Name node)) eqn:Hn;
        by repeat constructor.
    + revert Hp. cbn [List.filter].
      destruct (namesSegment (Node.Name node)); by rewrite <- ?app_assoc.
Qed.

(** X3: the path of a playlist is made of the names of the nodes from
    the root of the tree to its own node, those that are empty or
    ["$ROOT"] left out, joined by ["/"]: every emitted node reached
    through nodes with the names [names] gives a playlist of the
    collection with its name, that path and the keys of its items. *)
Theorem extractPlaylists_path_of_names (root node : Node.t) (names : list string)
    (data : PlaylistData.t) (trackMap : gmap string TrackPtr) :
  route root names node →
  Node.Type_ node = "PLAYLIST" →
  Node.Playlist node = Some data →
  ∃ p, p ∈ extractPlaylists root "" trackMap
       ∧ Playlist.Name p = Node.Name node
       ∧ Playlist.Path p = strings.Join (List.filter namesSegment names) "/"
       ∧ Playlist.TrackKeys p
         = map (λ item, PrimaryKey.Key (PlaylistItem.PrimaryKey item))
             (PlaylistData.Items data).
Proof.
  intros Hroute Htype Hdata. eexists. split.
  - apply (route_path root names node [] trackMap _ Hroute); [constructor|].
    rewrite Htype, Hdata, ownPlaylists_emitted. apply list_elem_of_here.
  - done.
Qed.

Lemma extractPlaylists_path_of_names_witness :
  ∃ p, p ∈ extractPlaylists sampleRoot "" ∅
       ∧ Playlist.Name p = "Friday"
       ∧ Playlist.Path p = "Sets/Friday".
Proof.
  assert (route sampleRoot ["$ROOT"; "Sets"; "Friday"]
            (Node.mk "PLAYLIST" "Friday" 0 []
               (Some (sampleData ["Backup/:Music/:b.mp3"])))) as Hroute.
  { eapply route_sub; [apply list_elem_of_here|].
    eapply route_sub; [apply list_elem_of_here|]. apply route_here. }
  destruct (extractPlaylists_path_of_names _ _ _ _ ∅ Hroute eq_refl eq_refl)
    as (p & Hin & Hname & Hpath & _).
  exists p. split; [exact Hin|]. split; [exact Hname | exact Hpath].
Defined.

(** ** Resolved and unresolved keys *)

Lemma length_omap_eq {A B} (f : A → option B) (l : list A) :
  length (omap f l) = length l ↔ Forall (λ x, is_Some (f x)) l.
Proof.
  induction l as [|x l IH]; cbn; [by split; [constructor|]|].
  pose proof (length_omap_le f l) as Hle.
  destruct (f x) as [y|] eqn:Hy; cbn.
  - split.
    + intros [= Hlen]. constructor; [by rewrite Hy|]. by apply IH.
    + intros [_ Hl]%Forall_cons. f_equal. by apply IH.
  - split; [lia|]. intros [[y Hy'] _]%Forall_cons. congruence.
Qed.

(** X4: a playlist has as many tracks as keys exactly when the map
    resolves every one of its keys; a single unresolved key makes the
    track list shorter. *)
Theorem extractPlaylists_fully_resolved (root : Node.t) (rootPath : string)
    (trackMap : gmap string TrackPtr) (p : Playlist.t) :
  p ∈ extractPlaylists root rootPath trackMap →
  (length (Playlist.Tracks p) = length (Playlist.TrackKeys p)
   ↔ ∀ key, key ∈ Playlist.TrackKeys p → is_Some (trackMap !! key))
  ∧ ((∃ key, key ∈ Playlist.TrackKeys p ∧ trackMap !! key = None) →
     (length (Playlist.Tracks p) < length (Playlist.TrackKeys p))%nat).
Proof.
  intros Hp.
  destruct (extractPlaylists_keys_and_tracks _ _ _ _ Hp)
    as (_ & _ & _ & _ & _ & _ & Htracks).
  assert (length (Playlist.Tracks p) = length (Playlist.TrackKeys p)
          ↔ ∀ key, key ∈ Playlist.TrackKeys p → is_Some (trackMap !! key)) as Hiff.
  { rewrite Htracks, length_omap_eq. apply Forall_forall. }
  split; [done|].
  intros (key & Hkey & Hnone).
  pose proof (length_omap_le (λ key, trackMap !! key) (Playlist.TrackKeys p)) as Hle.
  rewrite <- Htracks in Hle.
  destruct (decide (length (Playlist.Tracks p) = length (Playlist.TrackKeys p)))
    as [Heq|Hne]; [|lia].
  destruct (proj1 Hiff Heq key Hkey) as [track Htrack]. congruence.
Qed.

Lemma extractPlaylists_fully_resolved_witness :
  ∃ p, p ∈ extractPlaylists sampleRoot "" {[ "Macintosh HD/:Music/:a.mp3" := 2 ]}
       ∧ (length (Playlist.Tracks p) < length (Playlist.TrackKeys p))%nat.
Proof.
  set (trackMap := ({[ "Macintosh HD/:Music/:a.mp3" := 2 ]} : gmap string TrackPtr)).
  set (p := {| Playlist.Name := "Sets"; Playlist.Path := "Sets";
               Playlist.TrackKeys := ["Macintosh HD/:Music/:a.mp3"; "gone"];
               Playlist.Tracks := [2] |}).
  assert (p ∈ extractPlaylists sampleRoot "" trackMap) as Hp.
  { vm_compute. apply list_elem_of_here. }
  exists p. split; [exact Hp|].
  apply (proj2 (extractPlaylists_fully_resolved sampleRoot "" trackMap p Hp)).
  exists "gone". split; [|reflexivity].
  apply list_elem_of_further, list_elem_of_here.
Defined.

(** ** The key lookup of a parsed collection *)

Lemma addEntry_loop_trackMap_dom (entries : list Entry.t) (c : TraktorCollection.t)
    (key : string) :
  is_Some (TraktorCollection.trackMap (fold_left addEntry entries c) !! key)
  ↔ is_Some (TraktorCollection.trackMap c !! key)
    ∨ ∃ entry, entry ∈ entries ∧ buildPrimaryKey (Entry.Location entry) = key.
Proof.
  revert c. induction entries as [|entry entries IH]; intros c.
  - cbn. split; [by left|]. intros [H|(e & He & _)]; [done|].
    by apply not_elem_of_nil in He.
  - cbn [fold_left]. rewrite IH. cbn [addEntry TraktorCollection.trackMap].
    rewrite lookup_insert_is_Some. cbn [convertEntryToTrack Track.PrimaryKey].
    split.
    + intros [[Heq|[_ Hc]]|(e & He & Hkey)].
      * right. exists entry. split; [apply list_elem_of_here|done].
      * by left.
      * right. exists e. split; [by apply list_elem_of_further|done].
    + intros [Hc|(e & He & Hkey)].
      * left. destruct (decide (buildPrimaryKey (Entry.Location entry) = key));
          [by left|by right].
      * apply elem_of_cons in He as [->|He]; [by left; left|].
        right. by exists e.
Qed.

Lemma buildCollection_Tracks (nml : NML.t) :
  TraktorCollection.Tracks (buildCollection nml)
  = map convertEntryToTrack (Collection.Tracks (NML.Collection nml)).
Proof. unfold buildCollection. cbn. by rewrite addEntry_loop_Tracks. Qed.

Lemma buildCollection_trackMap_sound (nml : NML.t) (key : string) (i : TrackPtr) :
  GetTrackByKey (buildCollection nml) key = Some i →
  ∃ t, derefTrack (buildCollection nml) i = Some t ∧ Track.PrimaryKey t = key.
Proof.
  apply (addEntry_loop_trackMap_sound _ _
           (λ k i H, match lookup_empty_Some _ _ H with end) key i).
Qed.

(** X5: in a parsed collection, [GetTrackByKey] returns nil exactly for
    the keys that no track of the collection has, and a pointer it
    returns is the address of a track with the key asked for. *)
Theorem GetTrackByKey_found_iff_present (nml : NML.t) (key : string) :
  let c := buildCollection nml in
  (GetTrackByKey c key = None
   ↔ ∀ t, t ∈ TraktorCollection.Tracks c → Track.PrimaryKey t ≠ key)
  ∧ (∀ i, GetTrackByKey c key = Some i →
          ∃ t, derefTrack c i = Some t ∧ Track.PrimaryKey t = key).
Proof.
  intros c. split; [|apply buildCollection_trackMap_sound].
  unfold c. rewrite buildCollection_Tracks.
  pose proof (addEntry_loop_trackMap_dom (Collection.Tracks (NML.Collection nml))
                {| TraktorCollection.Version := NML.Version nml;
                   TraktorCollection.Tracks := [];
                   TraktorCollection.Playlists := [];
                   TraktorCollection.trackMap := ∅ |} key) as Hdom.
  change (TraktorCollection.trackMap (fold_left addEntry _ _) !! key)
    with (GetTrackByKey (buildCollection nml) key) in Hdom.
  cbn [TraktorCollection.trackMap] in Hdom. rewrite lookup_empty in Hdom.
  split.
  - intros Hnone t [entry [-> Hentry]]%list_elem_of_fmap Hkey.
    rewrite Hnone in Hdom. apply (is_Some_None (A := TrackPtr)).
    apply Hdom. right. by exists entry.
  - intros Hall. apply eq_None_not_Some. intros Hsome.
    apply Hdom in Hsome as [[? [=]]|(entry & Hentry & Hkey)].
    apply (Hall (convertEntryToTrack entry)); [|done].
    apply list_elem_of_fmap. by exists entry.
Qed.

Lemma addEntry_loop_trackMap_size (entries : list Entry.t) (c : TraktorCollection.t) :
  NoDup (map (λ entry, buildPrimaryKey (Entry.Location entry)) entries) →
  (∀ entry, entry ∈ entries →
            TraktorCollection.trackMap c !! buildPrimaryKey (Entry.Location entry) = None) →
  size (TraktorCollection.trackMap (fold_left addEntry entries c))
  = (size (TraktorCollection.trackMap c) + length entries)%nat.
Proof.
  revert c. induction entries as [|entry entries IH]; intros c Hnodup Hfresh.
  - cbn. lia.
  - cbn [map] in Hnodup. apply NoDup_cons in Hnodup as [Hnotin Hnodup].
    cbn [fold_left]. rewrite IH; [|done|].
    + cbn [addEntry TraktorCollection.trackMap].
      rewrite map_size_insert_None by apply Hfresh, list_elem_of_here.
      cbn. lia.
    + intros e He. cbn [addEntry TraktorCollection.trackMap].
      rewrite lookup_insert_ne; [by apply Hfresh, list_elem_of_further|].
      cbn [convertEntryToTrack Track.PrimaryKey]. intros Heq.
      apply Hnotin. rewrite Heq. apply list_elem_of_fmap. by exists e.
Qed.

(** X6: when the keys of the entries of the document are pairwise
    distinct, the lookup inverts the key: [GetTrackByKey] of the key of
    the i-th track is the pointer to the i-th track, and the map holds as
    many keys as the collection has tracks. *)
Theorem GetTrackByKey_distinct_keys (nml : NML.t) :
  let c := buildCollection nml in
  NoDup (map (λ entry, buildPrimaryKey (Entry.Location entry))
           (Collection.Tracks (NML.Collection nml))) →
  (∀ i t, derefTrack c i = Some t → GetTrackByKey c (Track.PrimaryKey t) = Some i)
  ∧ size (TraktorCollection.trackMap c) = length (TraktorCollection.Tracks c).
Proof.
  intros c Hnodup. split.
  - intros i t. unfold c, derefTrack. rewrite buildCollection_Tracks.
    intros (entry & -> & Hi)%list_lookup_fmap_Some.
    destruct (lookup_split_length _ _ _ Hi) as (before & after & Hsplit & Hlen).
    unfold GetTrackByKey, buildCollection. cbn. rewrite Hsplit.
    rewrite addEntry_loop_trackMap_last; [cbn; by rewrite Hlen|].
    intros e He Heq. rewrite Hsplit, map_app in Hnodup. cbn [map] in Hnodup.
    apply NoDup_app in Hnodup as (_ & _ & Hnodup).
    apply NoDup_cons in Hnodup as [Hnotin _].
    apply Hnotin. rewrite <- Heq. apply list_elem_of_fmap. by exists e.
  - unfold c. rewrite buildCollection_Tracks, length_map.
    unfold buildCollection. cbn.
    rewrite addEntry_loop_trackMap_size; [done| done |].
    intros e _. apply lookup_empty.
Qed.

Lemma GetTrackByKey_distinct_keys_witness :
  let nml :=
    {| NML.Version := "19";
       NML.Collection :=
         {| Collection.Entries := 2;
            Collection.Tracks :=
              [ sampleEntry "A" "first" "Macintosh HD" "/:Music/:" "a.mp3";
                sampleEntry "B" "other" "Backup" "/:Music/:" "b.mp3" ] |};
       NML.Playlists := {| Playlists.Node := sampleRoot |} |} in
  GetTrackByKey (buildCollection nml) "Backup/:Music/:b.mp3" = Some 1%nat
  ∧ size (TraktorCollection.trackMap (buildCollection nml)) = 2%nat.
Proof.
  intros nml.
  assert (NoDup (map (λ entry, buildPrimaryKey (Entry.Location entry))
                   (Collection.Tracks (NML.Collection nml)))) as Hnodup.
  { cbn. apply NoDup_cons. split.
    - intros Hin. apply list_elem_of_singleton in Hin. discriminate.
    - apply NoDup_singleton. }
  destruct (GetTrackByKey_distinct_keys nml Hnodup) as [Hlookup Hsize].
  split.
  - exact (Hlookup 1%nat
             (convertEntryToTrack (sampleEntry "B" "other" "Backup" "/:Music/:" "b.mp3"))
             eq_refl).
  - exact Hsize.
Defined.

(** X8: in a parsed collection, a playlist key that is the key of some
    entry of the document is resolved: the track list of the playlist
    holds the pointer [GetTrackByKey] gives for it, and that pointer is
    the address of a track with the key. *)
Theorem buildCollection_resolves_entry_keys (nml : NML.t) (p : Playlist.t)
    (key : string) (entry : Entry.t) :
  let c := buildCollection nml in
  p ∈ TraktorCollection.Playlists c →
  key ∈ Playlist.TrackKeys p →
  entry ∈ Collection.Tracks (NML.Collection nml) →
  buildPrimaryKey (Entry.Location entry) = key →
  ∃ track t,
    track ∈ Playlist.Tracks p
    ∧ GetTrackByKey c key = Some track
    ∧ derefTrack c track = Some t
    ∧ Track.PrimaryKey t = key.
Proof.
  intros c Hp Hkey Hentry Hloc.
  destruct (extractPlaylists_keys_and_tracks _ _ _ _ Hp)
    as (_ & _ & _ & _ & _ & _ & Htracks).
  assert (is_Some (GetTrackByKey c key)) as [track Htrack].
  { apply addEntry_loop_trackMap_dom. right. by exists entry. }
  destruct (buildCollection_trackMap_sound nml key track Htrack) as (t & Ht & Htkey).
  exists track, t. split; [|done].
  rewrite Htracks. apply list_elem_of_omap. by exists key.
Qed.

Lemma buildCollection_resolves_entry_keys_witness :
  ∃ track t,
    GetTrackByKey (buildCollection sampleNML) "Backup/:Music/:b.mp3" = Some track
    ∧ derefTrack (buildCollection sampleNML) track = Some t
    ∧ Track.PrimaryKey t = "Backup/:Music/:b.mp3".
Proof.
  set (p := {| Playlist.Name := "Friday"; Playlist.Path := "Sets/Friday";
               Playlist.TrackKeys := ["Backup/:Music/:b.mp3"];
               Playlist.Tracks := [1%nat] |}).
  assert (p ∈ TraktorCollection.Playlists (buildCollection sampleNML)) as Hp.
  { vm_compute. apply list_elem_of_further, list_elem_of_here. }
  destruct (buildCollection_resolves_entry_keys sampleNML p "Backup/:Music/:b.mp3"
              (sampleEntry "B" "other" "Backup" "/:Music/:" "b.mp3") Hp)
    as (track & t & _ & Hlookup & Hderef & Hkey).
  - apply list_elem_of_here.
  - apply list_elem_of_further, list_elem_of_here.
  - reflexivity.
  - exists track, t. split; [exact Hlookup|]. split; [exact Hderef | exact Hkey].
Defined.

(** ** Where the collection is looked for *)

Lemma Clean_nonempty (path : string) : filepath.Clean path ≠ "".
Proof.
  unfold filepath.Clean. destruct path as [|c rest]; [done|].
  by destruct (if os.IsPathSeparator c then _ else _).
Qed.

Lemma Join_nonempty (elem : list string) :
  (∃ e, e ∈ elem ∧ e ≠ "") → filepath.Join elem ≠ "".
Proof.
  induction elem as [|e elem IH]; intros (x & Hin & Hne).
  - by apply not_elem_of_nil in Hin.
  - cbn [filepath.Join]. destruct (String.eqb_spec e "") as [->|He].
    + apply IH. apply elem_of_cons in Hin as [->|Hin]; [done|]. by exists x.
    + apply Clean_nonempty.
Qed.

Lemma candidate_nonempty (homeDir version : string) : candidate homeDir version ≠ "".
Proof.
  unfold candidate. apply Join_nonempty. exists "Documents". split; [|done].
  apply list_elem_of_further, list_elem_of_here.
Qed.

(** X9: [collectionLocation] returns the file of Traktor 4.4.1 when
    [os.Stat] finds it, else the file of Traktor 4.4.0 when [os.Stat]
    finds that, else the empty string; it is empty also when the home
    directory is unknown. So a location that is not empty is a file
    [os.Stat] has found, and [IsAvailable] says whether there is one. *)
Theorem collectionLocation_first_existing (w : World) :
  (UserHomeDir w = None → collectionLocation w = "")
  ∧ (∀ homeDir, UserHomeDir w = Some homeDir →
       collectionLocation w
       = if Stat w (candidate homeDir "Traktor 4.4.1")
         then candidate homeDir "Traktor 4.4.1"
         else if Stat w (candidate homeDir "Traktor 4.4.0")
              then candidate homeDir "Traktor 4.4.0"
              else "")
  ∧ (collectionLocation w ≠ "" → Stat w (collectionLocation w) = true)
  ∧ (IsAvailable w = true
     ↔ ∃ homeDir version,
         UserHomeDir w = Some homeDir ∧ version ∈ versions
         ∧ Stat w (candidate homeDir version) = true).
Proof.
  unfold IsAvailable, collectionLocation.
  destruct (UserHomeDir w) as [homeDir|] eqn:Hhome.
  - cbn [firstExisting versions].
    fold (candidate homeDir "Traktor 4.4.1"). fold (candidate homeDir "Traktor 4.4.0").
    pose proof (candidate_nonempty homeDir "Traktor 4.4.1") as Hne1.
    pose proof (candidate_nonempty homeDir "Traktor 4.4.0") as Hne0.
    split; [done|]. split; [by intros ? [= <-]|].
    destruct (Stat w (candidate homeDir "Traktor 4.4.1")) eqn:H1;
      [|destruct (Stat w (candidate homeDir "Traktor 4.4.0")) eqn:H0].
    + split; [done|]. apply String.eqb_neq in Hne1. rewrite Hne1.
      split; [|done]. intros _. exists homeDir, "Traktor 4.4.1".
      split; [done|]. split; [apply list_elem_of_here|done].
    + split; [done|]. apply String.eqb_neq in Hne0. rewrite Hne0.
      split; [|done]. intros _. exists homeDir, "Traktor 4.4.0".
      split; [done|]. split; [apply list_elem_of_further, list_elem_of_here|done].
    + split; [done|]. split; [done|].
      intros (h & version & [= <-] & Hin & Hstat).
      unfold versions in Hin.
      apply elem_of_cons in Hin as [->|Hin]; [congruence|].
      apply list_elem_of_singleton in Hin as ->. congruence.
  - split; [done|]. split; [done|]. split; [done|]. split; [done|].
    by intros (h & version & [=] & _).
Qed.

Lemma collectionLocation_first_existing_witness :
  collectionLocation sampleWorld
    = "/Users/dj/Documents/Native Instruments/Traktor 4.4.0/collection.nml"
  ∧ Stat sampleWorld (collectionLocation sampleWorld) = true
  ∧ collectionLocation emptyWorld = "".
Proof.
  destruct (collectionLocation_first_existing sampleWorld) as (_ & Hloc & Hstat & _).
  split; [exact (Hloc "/Users/dj" eq_refl)|]. split; [|reflexivity].
  apply Hstat. discriminate.
Defined.

(** ** What a parse returns *)

(** X10: a parse returns a collection and no error, or an error and no
    collection. [ParseCollection] fails with [os.ErrNotExist] exactly
    when [IsAvailable] is false; otherwise it returns what
    [ParseCollectionFromPath] returns for the location found, which
    fails with a path error when the file does not open and with a
    decode error when it opens and does not decode. *)
Theorem ParseCollection_errors (w : World) (path : string) :
  ((∃ c, ParseCollection w = (Some c, None))
   ∨ (∃ e, ParseCollection w = (None, Some e)))
  ∧ (IsAvailable w = false ↔ ParseCollection w = (None, Some ErrNotExist))
  ∧ (IsAvailable w = true →
     ParseCollection w = ParseCollectionFromPath w (collectionLocation w))
  ∧ (Open w path = None ↔
     ParseCollectionFromPath w path = (None, Some (PathError path)))
  ∧ ((∃ file, Open w path = Some file ∧ Decode w file = None) ↔
     ParseCollectionFromPath w path = (None, Some DecodeError))
  ∧ ((∃ file nml, Open w path = Some file ∧ Decode w file = Some nml) ↔
     ∃ c, ParseCollectionFromPath w path = (Some c, None)).
Proof.
  split; [apply ParseCollection_result|].
  unfold IsAvailable, ParseCollection, ParseCollectionFromPath.
  split; [|split; [|split; [|split]]].
  - destruct (String.eqb (collectionLocation w) ""); cbn; [done|].
    split; [done|].
    destruct (Open w _) as [file|]; [|done]. by destruct (Decode w file).
  - by destruct (String.eqb (collectionLocation w) "").
  - destruct (Open w path) as [file|]; [|done].
    split; [done|]. by destruct (Decode w file).
  - destruct (Open w path) as [file|].
    + destruct (Decode w file) eqn:Hd.
      * split; [|done]. intros (f & [= <-] & Hn). congruence.
      * split; [done|]. intros _. by exists file.
    + split; [|done]. by intros (f & [=] & _).
  - destruct (Open w path) as [file|].
    + destruct (Decode w file) as [nml|] eqn:Hd.
      * split; [by eexists|]. intros _. by exists file, nml.
      * split; [|by intros (c & [=])]. intros (f & nml & [= <-] & Hn). congruence.
    + split; [|by intros (c & [=])]. by intros (f & nml & [=] & _).
Qed.

Lemma ParseCollection_errors_witness :
  ParseCollection emptyWorld = (None, Some ErrNotExist)
  ∧ ParseCollection sampleWorld
    = ParseCollectionFromPath sampleWorld (collectionLocation sampleWorld).
Proof.
  destruct (ParseCollection_errors emptyWorld "") as (_ & Hnone & _).
  destruct (ParseCollection_errors sampleWorld "") as (_ & _ & Havailable & _).
  split; [by apply Hnone | by apply Havailable].
Defined.

(** ** The loader when the parse succeeds *)

Lemma call_cached (w : World) (c : Call) (col : TraktorCollection.t) (n : nat) :
  ∃ v, call w c (cached col n) = (Returns v, cached col n).
Proof. unfold cached. destruct c; cbn; eauto. Qed.

Lemma exec_cached (calls : list (World * Call)) (col : TraktorCollection.t) (n : nat) :
  Forall (λ r, ∃ v, r = Returns v) (fst (exec calls (cached col n)))
  ∧ run calls (cached col n) = exec calls (cached col n).
Proof.
  induction calls as [|[w c] calls [IHall IHrun]]; [by split; [constructor|]|].
  cbn [exec run]. destruct (call_cached w c col n) as [v ->].
  rewrite IHrun. destruct (exec calls (cached col n)) as [rs g]. cbn in *.
  split; [|done]. constructor; [by exists v|done].
Qed.

(** X11: the first loader call returns exactly when the parse gives a
    collection, and panics exactly when the parse gives an error. A true
    [IsAvailable] does not protect the caller: when the file is there
    and does not open or does not decode, the call panics. *)
Theorem loader_first_call_outcome (w : World) (c : Call) :
  ((∃ v, fst (call w c initial) = Returns v)
   ↔ ∃ col, ParseCollection w = (Some col, None))
  ∧ (fst (call w c initial) = NilDereference
     ↔ ∃ e, ParseCollection w = (None, Some e))
  ∧ (IsAvailable w = true →
     Open w (collectionLocation w) = None
     ∨ (∃ file, Open w (collectionLocation w) = Some file ∧ Decode w file = None) →
     fst (call w c initial) = NilDereference).
Proof.
  assert ((∃ e, ParseCollection w = (None, Some e))
          → fst (call w c initial) = NilDereference) as Hpanic.
  { intros [e He]. loader_cases c; cbn; by rewrite He. }
  assert ((∃ col, ParseCollection w = (Some col, None))
          → ∃ v, fst (call w c initial) = Returns v) as Hreturn.
  { intros [col Hcol]. loader_cases c; cbn; rewrite Hcol; cbn; eauto. }
  split; [|split].
  - split; [|done]. intros [v Hv].
    destruct (ParseCollection_result w) as [Hok|Herr]; [done|].
    rewrite (Hpanic Herr) in Hv. discriminate.
  - split; [|done]. intros Hnil.
    destruct (ParseCollection_result w) as [Hok|Herr]; [|done].
    destruct (Hreturn Hok) as [v Hv]. congruence.
  - intros Havailable Hbroken. apply Hpanic.
    unfold IsAvailable in Havailable. apply negb_true_iff in Havailable.
    unfold ParseCollection, ParseCollectionFromPath. rewrite Havailable.
    destruct Hbroken as [->|(file & -> & ->)]; eauto.
Qed.

Lemma loader_first_call_outcome_witness :
  let broken :=
    {| UserHomeDir := Some "/Users/dj"; Stat := λ _, true;
       Open := λ _, Some "not xml"; Decode := λ _, None |} in
  IsAvailable broken = true
  ∧ fst (call broken CallGetSortedPlaylistNames initial) = NilDereference.
Proof.
  intros broken. split; [reflexivity|].
  destruct (loader_first_call_outcome broken CallGetSortedPlaylistNames)
    as (_ & _ & Hbroken).
  apply Hbroken; [reflexivity|]. right. by exists "not xml".
Defined.

(** X12: once the first call has parsed a collection, no loader call
    panics, whatever the calls and the worlds they are made in, and
    [GetPlaylists] returns the playlists of that collection every
    time. *)
Theorem loader_after_success (w : World) (c : Call) (calls : list (World * Call))
    (col : TraktorCollection.t) :
  ParseCollection w = (Some col, None) →
  Forall (λ r, ∃ v, r = Returns v) (fst (exec ((w, c) :: calls) initial))
  ∧ run ((w, c) :: calls) initial = exec ((w, c) :: calls) initial
  ∧ ∀ w', fst (GetPlaylists w' (snd (exec ((w, c) :: calls) initial)))
          = Returns (TraktorCollection.Playlists col).
Proof.
  intros Hcol.
  assert (∃ v, call w c initial = (Returns v, cached col 1)) as [v Hcall].
  { unfold cached. loader_cases c; cbn; rewrite Hcol; cbn; eauto. }
  cbn [exec run]. rewrite Hcall.
  destruct (exec_cached calls col 1) as [Hall ->].
  pose proof (exec_loaded calls (cached col 1) eq_refl) as Hstate.
  destruct (exec calls (cached col 1)) as [rs g]. cbn in *. subst g.
  split; [|split; [done|]].
  - constructor; [by exists v|done].
  - done.
Qed.

Lemma loader_after_success_witness :
  Forall (λ r, ∃ v, r = Returns v)
    (fst (exec [(sampleWorld, CallLoadCollection); (emptyWorld, CallGetPlaylists)]
            initial)).
Proof.
  exact (proj1 (loader_after_success sampleWorld CallLoadCollection
                  [(emptyWorld, CallGetPlaylists)] (buildCollection sampleNML)
                  eq_refl)).
Defined.

(** X13: when the parse succeeds, [GetSortedPlaylistNames] returns the
    names of all playlists of the collection, each as often as it
    occurs, in ascending bytewise order. *)
Theorem GetSortedPlaylistNames_sorted (w : World) (col : TraktorCollection.t) :
  ParseCollection w = (Some col, None) →
  ∃ names,
    fst (GetSortedPlaylistNames w initial) = Returns names
    ∧ StronglySorted String.le names
    ∧ names ≡ₚ map Playlist.Name (TraktorCollection.Playlists col)
    ∧ length names = length (TraktorCollection.Playlists col).
Proof.
  intros Hcol. unfold GetSortedPlaylistNames, GetPlaylists, loadOnce. cbn.
  rewrite Hcol. cbn. eexists. split; [done|].
  split; [apply StronglySorted_merge_sort; apply _|].
  split; [apply merge_sort_Permutation|].
  by rewrite merge_sort_Permutation, length_map.
Qed.

Lemma GetSortedPlaylistNames_sorted_witness :
  ∃ names,
    fst (GetSortedPlaylistNames sampleWorld initial) = Returns names
    ∧ StronglySorted String.le names
    ∧ length names = 2%nat.
Proof.
  destruct (GetSortedPlaylistNames_sorted sampleWorld (buildCollection sampleNML) eq_refl)
    as (names & Hnames & Hsorted & _ & Hlen).
  exists names. split; [exact Hnames|]. split; [exact Hsorted | exact Hlen].
Defined.

(** X14: the names [GetSortedPlaylistNames] lists are exactly the names
    [GetPlaylistByName] finds a playlist for. *)
Theorem listed_names_are_found (w w' : World) (col : TraktorCollection.t)
    (names : list string) (name : string) :
  ParseCollection w = (Some col, None) →
  fst (GetSortedPlaylistNames w initial) = Returns names →
  name ∈ names
  ↔ ∃ i p, fst (LoaderGetPlaylistByName w'
                  (snd (GetSortedPlaylistNames w initial)) name)
           = Returns (Some i)
           ∧ derefPlaylist col i = Some p ∧ Playlist.Name p = name.
Proof.
  intros Hcol. unfold GetSortedPlaylistNames, GetPlaylists, loadOnce. cbn.
  rewrite Hcol. cbn. intros [= <-]. rewrite merge_sort_Permutation.
  unfold LoaderGetPlaylistByName, loadOnce, GetPlaylistByName, derefPlaylist. cbn.
  split.
  - intros (p & -> & Hp)%list_elem_of_fmap.
    destruct (findPlaylistByName _ 0 (Playlist.Name p)) as [i|] eqn:Hfind.
    + apply findPlaylistByName_Some in Hfind as (_ & (q & Hq & Hname) & _).
      rewrite Nat.sub_0_r in Hq. by exists i, q.
    + by destruct (findPlaylistByName_None _ _ _ Hfind p Hp).
  - intros (i & p & _ & Hp & <-). apply list_elem_of_fmap. exists p.
    split; [done|]. by eapply list_elem_of_lookup_2.
Qed.

Lemma listed_names_are_found_witness :
  ∃ i p, fst (LoaderGetPlaylistByName emptyWorld
                (snd (GetSortedPlaylistNames sampleWorld initial)) "Friday")
         = Returns (Some i)
         ∧ derefPlaylist (buildCollection sampleNML) i = Some p
         ∧ Playlist.Name p = "Friday".
Proof.
  apply (listed_names_are_found sampleWorld emptyWorld (buildCollection sampleNML)
           ["Friday"; "Sets"] "Friday" eq_refl eq_refl).
  apply list_elem_of_here.
Defined.

(** ** Absolute paths *)

Lemma backtrack_ge (buf : string) (dotdot w : nat) :
  (dotdot ≤ w)%nat → (dotdot ≤ filepath.backtrack buf dotdot w)%nat.
Proof.
  induction w as [|w IH]; intros Hle; cbn [filepath.backtrack]; [done|].
  destruct ((dotdot <? S w)%nat && _) eqn:Hcond; [|done].
  apply andb_true_iff in Hcond as [Hlt _]. apply Nat.ltb_lt in Hlt.
  apply IH. lia.
Qed.

Lemma substring_rooted (n : nat) (t : string) :
  (1 ≤ n)%nat →
  String.substring 0 n (String "/" t) = String "/" (String.substring 0 (n - 1) t).
Proof. destruct n; [lia|]. intros _. cbn. by rewrite Nat.sub_0_r. Qed.

(** The loop of [filepath.Clean] never gives up the leading separator
    of a rooted path. *)
Lemma cleanLoop_rooted (fuel : nat) (path : string) (dotdot : nat) (t : string) :
  (1 ≤ dotdot)%nat →
  ∃ t', filepath.cleanLoop fuel true path dotdot (String "/" t) = String "/" t'.
Proof.
  intros Hdotdot. revert path t.
  induction fuel as [|fuel IH]; intros path t; [by exists t|].
  destruct path as [|c rest]; [by exists t|].
  rewrite cleanLoop_step.
  destruct (os.IsPathSeparator c); [apply IH|].
  destruct (filepath.isDot c && filepath.atElementEnd rest); [apply IH|].
  destruct (filepath.isDot c && strings.HasPrefix rest "." && _).
  - destruct (Nat.ltb_spec dotdot (String.length (String "/" t))) as [Hlt|Hge];
      [|apply IH].
    rewrite substring_rooted; [apply IH|].
    pose proof (backtrack_ge (String "/" t) dotdot
                  (String.length (String "/" t) - 1)) as Hback.
    lia.
  - destruct (_ || _); rewrite !app_cons; apply IH.
Qed.

Lemma Clean_rooted (rest : string) :
  ∃ t, filepath.Clean (String "/" rest) = String "/" t.
Proof.
  destruct (cleanLoop_rooted (String.length (String "/" rest)) rest 1 "")
    as [t Ht]; [done|].
  exists t.
  change (filepath.Clean (String "/" rest))
    with (let out :=
            filepath.cleanLoop (String.length (String "/" rest)) true rest 1 "/" in
          match out with "" => "." | String _ _ => out end).
  cbn zeta. by rewrite Ht.
Qed.

Lemma Join_rooted (first : string) (rest : list string) :
  ∃ t, filepath.Join (String "/" first :: rest) = String "/" t.
Proof.
  cbn [filepath.Join String.eqb].
  assert (∃ tail, strings.Join (String "/" first :: rest)
                    (String filepath.Separator "") = String "/" tail) as [tail ->].
  { destruct rest; eexists; reflexivity. }
  apply Clean_rooted.
Qed.

(** X15: for a location with a volume, [buildFilePath] returns an
    absolute path, whatever the directory and the file name are; and it
    returns the empty path only when volume, directory (once the tokens
    are replaced and the leading separator is removed) and file name are
    all empty. *)
Theorem buildFilePath_absolute (loc : Location.t) :
  (Location.Volume loc ≠ "" → ∃ rest, buildFilePath loc = String "/" rest)
  ∧ (buildFilePath loc = ""
     ↔ Location.Volume loc = ""
       ∧ strings.TrimPrefix (strings.ReplaceAll (Location.Dir loc) "/:" "/") "/" = ""
       ∧ Location.File loc = "").
Proof.
  unfold buildFilePath. change (String os.PathSeparator "") with "/".
  set (dir := strings.TrimPrefix _ "/").
  destruct (String.eqb_spec (Location.Volume loc) "") as [Hempty|Hvolume]; cbn [negb].
  - split; [done|]. rewrite Hempty. split.
    + intros Hjoin.
      destruct (String.eqb_spec dir "") as [Hdir|Hdir];
        destruct (String.eqb_spec (Location.File loc) "") as [Hfile|Hfile]; [done|..];
        exfalso; revert Hjoin; apply Join_nonempty.
      * exists (Location.File loc). split; [|done].
        apply list_elem_of_further, list_elem_of_here.
      * exists dir. split; [apply list_elem_of_here|done].
      * exists dir. split; [apply list_elem_of_here|done].
    + intros (_ & -> & ->). reflexivity.
  - assert (∃ rest,
              (if String.eqb (Location.Volume loc) "Macintosh HD"
                  || String.eqb (Location.Volume loc) ":"
               then filepath.Join ["/"; dir; Location.File loc]
               else filepath.Join ["/Volumes"; Location.Volume loc; dir; Location.File loc])
              = String "/" rest) as [rest Hrest].
    { destruct (_ || _); apply Join_rooted. }
    split; [by exists rest|]. rewrite Hrest. split; [done|]. by intros [? _].
Qed.

Lemma buildFilePath_absolute_witness :
  ∃ rest, buildFilePath (sampleLocation "USB" "../:..//::x" "") = String "/" rest.
Proof.
  apply (proj1 (buildFilePath_absolute (sampleLocation "USB" "../:..//::x" ""))).
  discriminate.
Defined.

(** ** Searching and filtering tracks *)

(** The loops of the three filters append the tracks that satisfy the
    condition, in the order of the collection. *)
Lemma filter_loop {A} (f : A → bool) (l acc : list A) :
  fold_left (λ results x, if f x then results ++ [x] else results) l acc
  = acc ++ List.filter f l.
Proof.
  revert acc. induction l as [|x l IH]; intros acc; cbn.
  - by rewrite app_nil_r.
  - rewrite IH. destruct (f x); [|done]. by rewrite <- app_assoc.
Qed.

Lemma filter_sublist {A} (f : A → bool) (l : list A) : sublist (List.filter f l) l.
Proof.
  induction l as [|x l IH]; cbn; [constructor|].
  destruct (f x); by constructor.
Qed.

Lemma elem_of_filter_bool {A} (f : A → bool) (l : list A) (x : A) :
  x ∈ List.filter f l ↔ x ∈ l ∧ f x = true.
Proof. rewrite !list_elem_of_In. apply List.filter_In. Qed.

Lemma HasPrefix_spec (s prefix : string) :
  strings.HasPrefix s prefix = true ↔ ∃ t, s = prefix +:+ t.
Proof.
  revert s. induction prefix as [|a prefix IH]; intros s.
  - split; [by exists s|done].
  - destruct s as [|b s]; cbn [strings.HasPrefix].
    + split; [done|]. by intros [t [=]].
    + rewrite andb_true_iff, Ascii.eqb_eq, IH. split.
      * intros [-> [t ->]]. by exists t.
      * intros [t Ht]. rewrite app_cons in Ht. injection Ht as -> ->. eauto.
Qed.

Lemma Contains_spec (s substr : string) :
  Contains s substr = true ↔ ∃ a b, s = a +:+ substr +:+ b.
Proof.
  induction s as [|c s IH]; cbn [Contains]; rewrite orb_true_iff, HasPrefix_spec.
  - split.
    + intros [[t Ht]|[=]]. by exists "", t.
    + intros (a & b & Hab). left. destruct a; [by exists b|done].
  - rewrite IH. split.
    + intros [[t Ht]|(a & b & ->)]; [by exists "", t|].
      by exists (String c a), b.
    + intros ([|d a] & b & Hab); [left; by exists b|].
      rewrite app_cons in Hab. injection Hab as -> ->. right. by exists a, b.
Qed.

Lemma lowerBytes_app (s t : string) :
  lowerBytes (s +:+ t) = lowerBytes s +:+ lowerBytes t.
Proof.
  induction s as [|c s IH]; [done|].
  rewrite app_cons. cbn [lowerBytes]. by rewrite IH.
Qed.

Lemma isASCII_app (s t : string) : isASCII (s +:+ t) = isASCII s && isASCII t.
Proof.
  induction s as [|c s IH]; [done|].
  rewrite app_cons. cbn [isASCII]. by rewrite IH, andb_assoc.
Qed.

Section searching.
Variable unicodeToLower : string → string.
Implicit Types (c : TraktorCollection.t) (t : Track.t).

(** X17: [SearchTracks] returns, in the order of the collection, exactly
    the tracks whose artist, title or album, once lowered, contains the
    lowered query; a query that lowers to the empty string returns every
    track, and no match gives the empty list. *)
Theorem SearchTracks_matching c (query : string) :
  SearchTracks unicodeToLower c query
    = List.filter (matchesQuery unicodeToLower (ToLower unicodeToLower query))
        (TraktorCollection.Tracks c)
  ∧ sublist (SearchTracks unicodeToLower c query) (TraktorCollection.Tracks c)
  ∧ (∀ t, t ∈ SearchTracks unicodeToLower c query
          ↔ t ∈ TraktorCollection.Tracks c
            ∧ ∃ field a b,
                field ∈ [Track.Artist t; Track.Title t; Track.Album t]
                ∧ ToLower unicodeToLower field = a +:+ ToLower unicodeToLower query +:+ b)
  ∧ (ToLower unicodeToLower query = "" →
     SearchTracks unicodeToLower c query = TraktorCollection.Tracks c).
Proof.
  assert (SearchTracks unicodeToLower c query
          = List.filter (matchesQuery unicodeToLower (ToLower unicodeToLower query))
              (TraktorCollection.Tracks c)) as Heq
    by (unfold SearchTracks; by rewrite filter_loop).
  split; [done|]. rewrite Heq. split; [apply filter_sublist|]. split.
  - intros t. rewrite elem_of_filter_bool. unfold matchesQuery.
    rewrite !orb_true_iff, !Contains_spec. split.
    + intros [Hin [[(a & b & H)|(a & b & H)]|(a & b & H)]]; (split; [done|]).
      * exists (Track.Artist t), a, b. split; [apply list_elem_of_here|done].
      * exists (Track.Title t), a, b.
        split; [apply list_elem_of_further, list_elem_of_here|done].
      * exists (Track.Album t), a, b.
        split; [do 2 apply list_elem_of_further; apply list_elem_of_here|done].
    + intros [Hin (field & a & b & Hfield & H)]. split; [done|].
      apply elem_of_cons in Hfield as [->|Hfield]; [left; left; by exists a, b|].
      apply elem_of_cons in Hfield as [->|Hfield]; [left; right; by exists a, b|].
      apply list_elem_of_singleton in Hfield as ->. right. by exists a, b.
  - intros ->. clear Heq.
    induction (TraktorCollection.Tracks c) as [|t l IH]; [done|].
    cbn [List.filter]. rewrite IH.
    assert (matchesQuery unicodeToLower "" t = true) as ->; [|done].
    unfold matchesQuery. by destruct (ToLower unicodeToLower (Track.Artist t)).
Qed.

(** X18: on ASCII text the search does not distinguish upper and lower
    case: a track of the collection is found whenever its artist, title
    or album is ASCII and contains a stretch that equals the ASCII query
    up to the case of the letters [A] to [Z]. *)
Theorem SearchTracks_ascii_case c t (query field a m b : string) :
  t ∈ TraktorCollection.Tracks c →
  field ∈ [Track.Artist t; Track.Title t; Track.Album t] →
  isASCII query = true →
  isASCII field = true →
  field = a +:+ m +:+ b →
  lowerBytes m = lowerBytes query →
  t ∈ SearchTracks unicodeToLower c query.
Proof.
  intros Hin Hfield Hquery Hascii -> Hcase.
  unfold SearchTracks. rewrite filter_loop. apply elem_of_filter_bool.
  split; [done|].
  assert (Contains (ToLower unicodeToLower (a +:+ m +:+ b))
            (ToLower unicodeToLower query) = true) as Hcontains.
  { unfold ToLower. rewrite Hquery, Hascii, !lowerBytes_app, Hcase.
    apply Contains_spec. eauto. }
  unfold matchesQuery.
  apply elem_of_cons in Hfield as [<-|Hfield]; [by rewrite Hcontains|].
  apply elem_of_cons in Hfield as [<-|Hfield];
    [by rewrite Hcontains, orb_true_r|].
  apply list_elem_of_singleton in Hfield as <-. by rewrite Hcontains, orb_true_r.
Qed.

(** X19: [GetTracksByKey] returns, in the order of the collection,
    exactly the tracks whose key string, once lowered, equals the lowered
    key asked for; on ASCII keys that is equality up to the case of the
    letters [A] to [Z]. *)
Theorem GetTracksByKey_matching c (key : string) :
  GetTracksByKey unicodeToLower c key
    = List.filter
        (λ t, String.eqb (ToLower unicodeToLower (Track.Key t))
                (ToLower unicodeToLower key))
        (TraktorCollection.Tracks c)
  ∧ sublist (GetTracksByKey unicodeToLower c key) (TraktorCollection.Tracks c)
  ∧ (∀ t, t ∈ GetTracksByKey unicodeToLower c key
          ↔ t ∈ TraktorCollection.Tracks c
            ∧ ToLower unicodeToLower (Track.Key t) = ToLower unicodeToLower key)
  ∧ (isASCII key = true →
     ∀ t, t ∈ TraktorCollection.Tracks c → isASCII (Track.Key t) = true →
          (t ∈ GetTracksByKey unicodeToLower c key
           ↔ lowerBytes (Track.Key t) = lowerBytes key)).
Proof.
  assert (GetTracksByKey unicodeToLower c key
          = List.filter
              (λ t, String.eqb (ToLower unicodeToLower (Track.Key t))
                      (ToLower unicodeToLower key))
              (TraktorCollection.Tracks c)) as Heq
    by (unfold GetTracksByKey; by rewrite filter_loop).
  assert (∀ t, t ∈ GetTracksByKey unicodeToLower c key
               ↔ t ∈ TraktorCollection.Tracks c
                 ∧ ToLower unicodeToLower (Track.Key t)
                   = ToLower unicodeToLower key) as Hiff.
  { intros t. by rewrite Heq, elem_of_filter_bool, String.eqb_eq. }
  split; [done|]. split; [rewrite Heq; apply filter_sublist|]. split; [done|].
  intros Hkey t Hin Hascii. rewrite Hiff. unfold ToLower. rewrite Hkey, Hascii.
  by split; [intros [_ ?]|].
Qed.

End searching.

Lemma SearchTracks_matching_witness :
  map Track.Title (SearchTracks (λ s, s) (buildCollection sampleNML) "")
  = ["first"; "other"; "second"].
Proof.
  rewrite (proj2 (proj2 (proj2 (SearchTracks_matching (λ s, s)
                                  (buildCollection sampleNML) ""))) eq_refl).
  reflexivity.
Defined.

Lemma SearchTracks_ascii_case_witness :
  convertEntryToTrack (sampleEntry "A" "second" "Macintosh HD" "/:Mus" "ic/:a.mp3")
  ∈ SearchTracks (λ s, s) (buildCollection sampleNML) "ECON".
Proof.
  apply (SearchTracks_ascii_case (λ s, s) (buildCollection sampleNML) _
           "ECON" "second" "s" "econ" "d").
  - vm_compute. do 2 apply list_elem_of_further. apply list_elem_of_here.
  - apply list_elem_of_further, list_elem_of_here.
  - reflexivity.
  - reflexivity.
  - reflexivity.
  - reflexivity.
Defined.

Lemma GetTracksByKey_matching_witness :
  length (GetTracksByKey (λ s, s) (buildCollection sampleNML) "8M") = 3%nat
  ∧ convertEntryToTrack (sampleEntry "B" "other" "Backup" "/:Music/:" "b.mp3")
    ∈ GetTracksByKey (λ s, s) (buildCollection sampleNML) "8M".
Proof.
  destruct (GetTracksByKey_matching (λ s, s) (buildCollection sampleNML) "8M")
    as (Heq & _ & _ & Hascii).
  split; [by rewrite Heq|].
  apply Hascii; try reflexivity.
  vm_compute. apply list_elem_of_further, list_elem_of_here.
Defined.

(** ** The tempo filter *)

(** The IEEE order on the values that are not NaN is reflexive and
    transitive. *)
Lemma SFleb_refl_l (a b : spec_float) : SFleb a b = true → SFleb a a = true.
Proof.
  unfold SFleb, SFcompare.
  destruct a as [sa|sa| |sa ma ea]; try done; [by destruct sa|].
  intros _. destruct sa; rewrite Z.compare_refl;
    change (Pos.compare_cont Eq ma ma) with (Pos.compare ma ma);
    by rewrite Pos.compare_refl.
Qed.

Lemma SFleb_refl_r (a b : spec_float) : SFleb a b = true → SFleb b b = true.
Proof.
  unfold SFleb, SFcompare.
  destruct b as [sb|sb| |sb mb eb];
    [done|by destruct sb|by destruct a|].
  intros _. destruct sb; rewrite Z.compare_refl;
    change (Pos.compare_cont Eq mb mb) with (Pos.compare mb mb);
    by rewrite Pos.compare_refl.
Qed.

Lemma SFleb_trans (a b c : spec_float) :
  SFleb a b = true → SFleb b c = true → SFleb a c = true.
Proof.
  unfold SFleb, SFcompare.
  destruct a as [sa|sa| |sa ma ea], b as [sb|sb| |sb mb eb],
    c as [sc|sc| |sc mc ec];
    try done; try (by destruct sa); try (by destruct sb); try (by destruct sc);
    try (by destruct sa, sb); try (by destruct sb, sc); try (by destruct sa, sc);
    try (by destruct sa, sb, sc).
  change (Pos.compare_cont Eq ma mb) with (Pos.compare ma mb).
  change (Pos.compare_cont Eq mb mc) with (Pos.compare mb mc).
  change (Pos.compare_cont Eq ma mc) with (Pos.compare ma mc).
  destruct sa, sb, sc; try done;
    destruct (Z.compare_spec ea eb), (Z.compare_spec eb ec), (Z.compare_spec ea ec);
    try done; try lia;
    destruct (Pos.compare_spec ma mb), (Pos.compare_spec mb mc),
      (Pos.compare_spec ma mc); cbn; try done; lia.
Qed.

(** X20: [GetTracksByBPMRange] returns, in the order of the collection,
    exactly the tracks with [minBPM <= BPM <= maxBPM] in the IEEE order.
    Both bounds are included; a track whose tempo is NaN is never
    returned; and the result is empty when a bound is NaN or when
    [maxBPM] is below [minBPM]. *)
Theorem GetTracksByBPMRange_inclusive (c : TraktorCollection.t)
    (minBPM maxBPM : float64) :
  let inRange t :=
    PrimFloat.leb minBPM (Track.BPM t) && PrimFloat.leb (Track.BPM t) maxBPM in
  GetTracksByBPMRange c minBPM maxBPM = List.filter inRange (TraktorCollection.Tracks c)
  ∧ sublist (GetTracksByBPMRange c minBPM maxBPM) (TraktorCollection.Tracks c)
  ∧ (PrimFloat.leb minBPM maxBPM = true →
     ∀ t, t ∈ TraktorCollection.Tracks c →
          Track.BPM t = minBPM ∨ Track.BPM t = maxBPM →
          t ∈ GetTracksByBPMRange c minBPM maxBPM)
  ∧ (∀ t, t ∈ GetTracksByBPMRange c minBPM maxBPM →
          Prim2SF (Track.BPM t) ≠ S754_nan)
  ∧ (PrimFloat.leb minBPM maxBPM = false → GetTracksByBPMRange c minBPM maxBPM = []).
Proof.
  intros inRange.
  assert (GetTracksByBPMRange c minBPM maxBPM
          = List.filter inRange (TraktorCollection.Tracks c)) as Heq
    by (unfold GetTracksByBPMRange; by rewrite filter_loop).
  split; [done|]. rewrite Heq. split; [apply filter_sublist|].
  split; [|split].
  - intros Hrange t Hin Hbound. apply elem_of_filter_bool. split; [done|].
    unfold inRange. rewrite leb_spec in Hrange.
    destruct Hbound as [-> | ->]; rewrite Bool.andb_true_iff, !leb_spec.
    + split; [by eapply SFleb_refl_l|done].
    + split; [done|by eapply SFleb_refl_r].
  - intros t [_ Ht]%elem_of_filter_bool Hnan. unfold inRange in Ht.
    apply andb_true_iff in Ht as [Ht _]. rewrite leb_spec, Hnan in Ht.
    unfold SFleb, SFcompare in Ht. by destruct (Prim2SF minBPM).
  - intros Hrange. clear Heq.
    induction (TraktorCollection.Tracks c) as [|t l IH]; [done|].
    cbn [List.filter]. rewrite IH.
    destruct (inRange t) eqn:Ht; [|done].
    unfold inRange in Ht. apply andb_true_iff in Ht as [Hlow Hhigh].
    rewrite leb_spec in Hlow, Hhigh, Hrange.
    by rewrite (SFleb_trans _ _ _ Hlow Hhigh) in Hrange.
Qed.

Lemma GetTracksByBPMRange_inclusive_witness :
  convertEntryToTrack (sampleEntry "B" "other" "Backup" "/:Music/:" "b.mp3")
    ∈ GetTracksByBPMRange (buildCollection sampleNML) 124%float 130%float
  ∧ GetTracksByBPMRange (buildCollection sampleNML) 130%float 124%float = []
  ∧ GetTracksByBPMRange (buildCollection sampleNML) nan 200%float = [].
Proof.
  destruct (GetTracksByBPMRange_inclusive (buildCollection sampleNML) 124%float 130%float)
    as (_ & _ & Hbounds & _).
  split; [|split].
  - apply Hbounds; [reflexivity| |by left].
    vm_compute. apply list_elem_of_further, list_elem_of_here.
  - by apply GetTracksByBPMRange_inclusive.
  - by apply GetTracksByBPMRange_inclusive.
Defined.

(** ** Display helpers *)






Section durations.
Variable intOfUnrepresentable : float64 → Z.


End durations.


Lemma keys_NoDup : NoDup keys.
Proof. apply (bool_decide_unpack _). by vm_compute. Qed.

Lemma keys_nonempty : "" ∉ keys.
Proof. apply (bool_decide_unpack _). by vm_compute. Qed.

(** X22: [KeyValueToString] gives a notation exactly for the values 0 to
    23: the number [value / 2 + 1], from 1 to 12, followed by [d] for an
    even value and [m] for an odd one. Any other value gives the empty
    string, and different values from 0 to 23 give different
    notations. *)
Theorem KeyValueToString_notation (value other : Z) :
  ((0 ≤ value < 24)%Z →
   KeyValueToString value
   = Itoa (value / 2 + 1) +:+ (if Z.even value then "d" else "m"))
  ∧ (KeyValueToString value = "" ↔ ¬ (0 ≤ value < 24)%Z)
  ∧ ((0 ≤ value < 24)%Z →
     KeyValueToString value = KeyValueToString other → value = other).
Proof.
  assert (∀ v, (0 ≤ v < 24)%Z →
               keys !! Z.to_nat v = Some (KeyValueToString v)) as Hlookup.
  { intros v Hv. unfold KeyValueToString.
    destruct (Z.leb_spec 0 v); [|lia].
    destruct (Z.ltb_spec v (Z.of_nat (length keys))); [|cbn in *; lia].
    cbn [andb].
    destruct (keys !! Z.to_nat v) as [key|] eqn:Hkey.
    - by rewrite (nth_lookup_Some _ _ _ _ Hkey).
    - apply lookup_ge_None in Hkey. cbn in Hkey. lia. }
  assert (∀ v, ¬ (0 ≤ v < 24)%Z → KeyValueToString v = "") as Houtside.
  { intros v Hv. unfold KeyValueToString.
    destruct (Z.leb_spec 0 v); [|done].
    destruct (Z.ltb_spec v (Z.of_nat (length keys))); [cbn in *; lia|done]. }
  assert (∀ v, (0 ≤ v < 24)%Z → KeyValueToString v ≠ "") as Hinside.
  { intros v Hv Hempty. apply keys_nonempty. rewrite <- Hempty.
    eapply list_elem_of_lookup_2. by apply Hlookup. }
  split; [|split].
  - intros Hrange.
    assert (∃ k, value = Z.of_nat k ∧ (k < 24)%nat) as (k & -> & Hk)
      by (exists (Z.to_nat value); lia).
    do 24 (destruct k as [|k]; [reflexivity|]). lia.
  - split; [|apply Houtside].
    intros Hempty Hrange. by apply (Hinside value).
  - intros Hrange Heq.
    destruct (decide (0 ≤ other < 24)%Z) as [Hother|Hother].
    + apply Hlookup in Hrange as Hv. apply Hlookup in Hother as Ho.
      rewrite Heq in Hv.
      pose proof (NoDup_lookup _ _ _ _ keys_NoDup Hv Ho). lia.
    + rewrite (Houtside other Hother) in Heq. by apply Hinside in Heq.
Qed.

Lemma KeyValueToString_notation_witness :
  KeyValueToString 15 = "8m" ∧ KeyValueToString 24 = "" ∧ KeyValueToString (-1) = "".
Proof.
  destruct (KeyValueToString_notation 15 0) as (Hin & _).
  destruct (KeyValueToString_notation 24 0) as (_ & Hout & _).
  destruct (KeyValueToString_notation (-1) 0) as (_ & Hneg & _).
  split; [by rewrite Hin by lia|]. split; [apply Hout | apply Hneg]; lia.
Defined.

(** X23: [CuePointTypeToString] names the six types 0 to 5 with six
    different names and gives ["Unknown"] for every other type, and for
    no type from 0 to 5. *)
Theorem CuePointTypeToString_names (cueType other : Z) :
  (CuePointTypeToString cueType = "Unknown" ↔ ¬ (0 ≤ cueType ≤ 5)%Z)
  ∧ ((0 ≤ cueType ≤ 5)%Z →
     CuePointTypeToString cueType = CuePointTypeToString other → cueType = other).
Proof.
  assert (∀ z, ¬ (0 ≤ z ≤ 5)%Z → CuePointTypeToString z = "Unknown") as Hout.
  { intros [|p|p] Hz; [lia| |done].
    do 3 (destruct p as [p|p|]; try lia; try done). }
  assert (∀ z, (0 ≤ z ≤ 5)%Z → z = 0 ∨ z = 1 ∨ z = 2 ∨ z = 3 ∨ z = 4 ∨ z = 5)%Z
    as Hcases by (intros z Hz; lia).
  split.
  - split; [|apply Hout]. intros Hunknown Hrange.
    by destruct (Hcases _ Hrange) as [->|[->|[->|[->|[->| ->]]]]].
  - intros Hrange Heq.
    destruct (decide (0 ≤ other ≤ 5)%Z) as [Hother|Hother].
    + destruct (Hcases _ Hrange) as [->|[->|[->|[->|[->| ->]]]]];
        destruct (Hcases _ Hother) as [->|[->|[->|[->|[->| ->]]]]]; done.
    + rewrite (Hout other Hother) in Heq.
      by destruct (Hcases _ Hrange) as [->|[->|[->|[->|[->| ->]]]]].
Qed.

Lemma CuePointTypeToString_names_witness :
  CuePointTypeToString 6 = "Unknown" ∧ CuePointTypeToString (-1) = "Unknown".
Proof.
  split; apply (proj1 (CuePointTypeToString_names _ 0)); lia.
Defined.

(** ** Printing integers *)

Section formatInt_facts.
Import DecimalPos.Unsigned.
Implicit Types (n k : Z) (acc : Decimal.uint).

Lemma digit_cases k :
  (0 ≤ k < 10)%Z →
  k = 0%Z ∨ k = 1%Z ∨ k = 2%Z ∨ k = 3%Z ∨ k = 4%Z
  ∨ k = 5%Z ∨ k = 6%Z ∨ k = 7%Z ∨ k = 8%Z ∨ k = 9%Z.
Proof. lia. Qed.

Local Ltac each_digit H :=
  destruct (digit_cases _ H) as [->|[->|[->|[->|[->|[->|[->|[->|[->| ->]]]]]]]]].

Lemma string_of_digitUint n acc :
  (0 < n)%Z →
  NilEmpty.string_of_uint (digitUint (n mod 10) acc)
  = String (windows.digitByte n) (NilEmpty.string_of_uint acc).
Proof.
  intros Hn. unfold windows.digitByte. rewrite Z.rem_mod_nonneg by lia.
  pose proof (Z.mod_pos_bound n 10 eq_refl) as Hk.
  each_digit Hk; reflexivity.
Qed.

Lemma formatDigits_digitsUint fuel n acc :
  windows.formatDigits fuel n (NilEmpty.string_of_uint acc)
  = NilEmpty.string_of_uint (digitsUint fuel n acc).
Proof.
  revert n acc. induction fuel as [|fuel IH]; intros n acc; [done|].
  cbn [windows.formatDigits digitsUint].
  destruct (Z.ltb_spec 0 n) as [Hn|Hn]; [|done].
  rewrite Z.quot_div_nonneg by lia.
  by rewrite <- string_of_digitUint, IH.
Qed.

Lemma digitUint_value k acc :
  (0 ≤ k < 10)%Z →
  of_lu (Decimal.rev (digitUint k acc))
  = (of_lu (Decimal.rev acc) + Z.to_N k * 10 ^ usize acc)%N
  ∧ usize (digitUint k acc) = N.succ (usize acc).
Proof.
  intros Hk.
  each_digit Hk; (split; [|reflexivity]); unfold Decimal.rev; cbn [digitUint Decimal.revapp];
    by rewrite of_lu_revapp.
Qed.

Lemma digitsUint_value fuel n acc :
  (0 ≤ n < 10 ^ Z.of_nat fuel)%Z →
  of_lu (Decimal.rev (digitsUint fuel n acc))
  = (Z.to_N n * 10 ^ usize acc + of_lu (Decimal.rev acc))%N.
Proof.
  revert n acc. induction fuel as [|fuel IH]; intros n acc Hn.
  - assert (n = 0%Z) as -> by (cbn in Hn; lia).
    cbn [digitsUint]. change (Z.to_N 0) with 0%N. by rewrite N.mul_0_l.
  - cbn [digitsUint]. destruct (Z.ltb_spec 0 n) as [Hpos|Hpos].
    2: { assert (n = 0%Z) as -> by lia.
         change (Z.to_N 0) with 0%N. by rewrite N.mul_0_l. }
    pose proof (Z.mod_pos_bound n 10 eq_refl) as Hk.
    pose proof (Z.div_mod n 10 ltac:(lia)) as Hdiv.
    assert (0 ≤ n / 10)%Z as Hq by (apply Z.div_pos; lia).
    rewrite Nat2Z.inj_succ, Z.pow_succ_r in Hn by lia.
    rewrite IH by (split; [done|apply Z.div_lt_upper_bound; lia]).
    destruct (digitUint_value (n mod 10) acc Hk) as [-> ->].
    rewrite N.pow_succ_r'.
    assert (Z.to_N n = 10 * Z.to_N (n / 10) + Z.to_N (n mod 10))%N as -> by lia.
    lia.
Qed.

Lemma digitsUint_zero fuel acc : digitsUint fuel 0 acc = acc.
Proof. by destruct fuel. Qed.

Lemma digitsUint_norm fuel n acc :
  (0 < n < 10 ^ Z.of_nat fuel)%Z →
  Decimal.unorm (digitsUint fuel n acc) = digitsUint fuel n acc.
Proof.
  revert n acc. induction fuel as [|fuel IH]; intros n acc Hn; [cbn in Hn; lia|].
  cbn [digitsUint]. destruct (Z.ltb_spec 0 n) as [_|?]; [|lia].
  rewrite Nat2Z.inj_succ, Z.pow_succ_r in Hn by lia.
  destruct (decide (n / 10 = 0)%Z) as [Hlast|Hmore].
  - rewrite Hlast, digitsUint_zero.
    assert (0 ≤ n < 10)%Z as Hk.
    { pose proof (Z.div_mod n 10 ltac:(lia)).
      pose proof (Z.mod_pos_bound n 10 eq_refl). lia. }
    rewrite Z.mod_small by done.
    each_digit Hk; (lia || reflexivity).
  - apply IH. split; [|apply Z.div_lt_upper_bound; lia].
    pose proof (Z.div_pos n 10). lia.
Qed.

(** The loop prints a positive [int64] as [strconv.Itoa] does. *)
Lemma formatDigits_positive (p : positive) :
  (Z.pos p < 2 ^ 63)%Z →
  windows.formatDigits 19 (Z.pos p) "" = Itoa (Z.pos p).
Proof.
  intros Hp.
  change "" with (NilEmpty.string_of_uint Decimal.Nil).
  rewrite formatDigits_digitsUint.
  assert (digitsUint 19 (Z.pos p) Decimal.Nil = Pos.to_uint p) as ->.
  { rewrite <- (digitsUint_norm 19 (Z.pos p) Decimal.Nil) by lia.
    rewrite <- to_of, of_uint_alt, digitsUint_value by lia.
    cbn. by rewrite N.add_0_r, N.mul_1_r. }
  unfold Itoa. cbn [Z.to_int NilZero.string_of_int]. unfold NilZero.string_of_uint.
  pose proof (to_uint_nonnil p). by destruct (Pos.to_uint p).
Qed.

End formatInt_facts.

Lemma formatInt_Itoa (n : Z) :
  (- 2 ^ 63 < n < 2 ^ 63)%Z → windows.formatInt n = Itoa n.
Proof.
  intros Hn. destruct n as [|p|p]; [done| |].
  - change (windows.formatInt (Z.pos p))
      with (windows.formatDigits 19 (Z.pos p) "").
    apply formatDigits_positive. lia.
  - change (windows.formatInt (Z.neg p))
      with (String "-" (windows.formatDigits 19 (windows.wrap64 (Z.pos p)) "")).
    assert (windows.wrap64 (Z.pos p) = Z.pos p) as ->.
    { unfold windows.wrap64. rewrite Z.mod_small by lia. lia. }
    rewrite formatDigits_positive by lia. reflexivity.
Qed.

(** X24: [formatInt] prints every [int64] but the smallest as
    [strconv.Itoa] prints it: its decimal numeral, with a minus sign for
    a negative number. For the smallest [int64] the negation wraps
    around, the digit loop does not run and the result is a lone
    ["-"]. *)
Theorem formatInt_decimal (n : Z) :
  ((- 2 ^ 63 < n < 2 ^ 63)%Z → windows.formatInt n = Itoa n)
  ∧ windows.formatInt (- 2 ^ 63) = "-".
Proof. split; [apply formatInt_Itoa|by vm_compute]. Qed.

Lemma formatInt_decimal_witness :
  windows.formatInt (-1024) = "-1024"
  ∧ windows.formatInt 9223372036854775807 = "9223372036854775807".
Proof.
  split.
  - rewrite (proj1 (formatInt_decimal (-1024))) by lia. reflexivity.
  - rewrite (proj1 (formatInt_decimal 9223372036854775807)) by lia. reflexivity.
Defined.

(** ** File sizes *)

(** X25: a size below 1024, zero and negative sizes included, is shown
    as its decimal numeral followed by [" B"], without any
    floating-point computation; only the smallest [int64] comes out as
    ["- B"]. *)
Theorem formatSize_bytes (intOfUnrepresentable : float64 → Z) (size : Z) :
  ((- 2 ^ 63 < size < 1024)%Z →
   windows.formatSize intOfUnrepresentable size = Itoa size +:+ " B")
  ∧ windows.formatSize intOfUnrepresentable (- 2 ^ 63) = "- B".
Proof.
  split; [|by vm_compute].
  intros Hsize. unfold windows.formatSize, windows.GB, windows.MB, windows.KB.
  destruct (Z.leb_spec (1024 * 1024 * 1024) size); [lia|].
  destruct (Z.leb_spec (1024 * 1024) size); [lia|].
  destruct (Z.leb_spec 1024 size); [lia|].
  by rewrite formatInt_Itoa by lia.
Qed.

Lemma formatSize_bytes_witness :
  windows.formatSize (λ _, 0%Z) 1023 = "1023 B"
  ∧ windows.formatSize (λ _, 0%Z) (-7) = "-7 B".
Proof.
  split.
  - rewrite (proj1 (formatSize_bytes (λ _, 0%Z) 1023)) by lia. reflexivity.
  - rewrite (proj1 (formatSize_bytes (λ _, 0%Z) (-7))) by lia. reflexivity.
Defined.

(** ** The children of a tree node *)

Lemma map_loop {A B} (f : A → B) (l : list A) (acc : list B) :
  fold_left (λ children x, children ++ [f x]) l acc = acc ++ map f l.
Proof.
  revert acc. induction l as [|x l IH]; intros acc; cbn.
  - by rewrite app_nil_r.
  - by rewrite IH, <- app_assoc.
Qed.

Lemma filter_map_loop {A B} (keep : A → bool) (f : A → B) (l : list A) (acc : list B) :
  fold_left (λ children x, if keep x then children ++ [f x] else children) l acc
  = acc ++ map f (List.filter keep l).
Proof.
  revert acc. induction l as [|x l IH]; intros acc; cbn.
  - by rewrite app_nil_r.
  - rewrite IH. destruct (keep x); [|done]. by rewrite <- app_assoc.
Qed.

Section tree_facts.
Variables Prefix PlaylistPrefix CollectionPrefix : string.
Implicit Types (treeData : gmap string (list string)) (g : Globals) (w : World)
  (readDir : string → option (list windows.DirEntry.t)).

Lemma playlistChildren_filter (names acc : list string) :
  fold_left
    (λ children entry,
       if strings.HasPrefix entry "_" then children
       else children ++ [PlaylistPrefix +:+ "/" +:+ entry]) names acc
  = acc ++ map (λ name, PlaylistPrefix +:+ "/" +:+ name)
             (List.filter (λ name, negb (strings.HasPrefix name "_")) names).
Proof.
  revert acc. induction names as [|name names IH]; intros acc;
    cbn [fold_left List.filter].
  - cbn. by rewrite app_nil_r.
  - rewrite IH. destruct (strings.HasPrefix name "_"); cbn [negb map]; [done|].
    by rewrite <- app_assoc.
Qed.

(** X26: a listing [loadChildren] has stored is final: when a call
    returns a list that is not empty, every later call for the same node
    returns the same list and changes nothing, whatever has become of
    the directory, of the collection file and of the loader. A call
    either stores its result for the node or returns the empty list and
    leaves the map as it is. *)
Theorem loadChildren_stored_is_final w readDir (uid : string) treeData g
    (children : list string) treeData' g' :
  windows.loadChildren Prefix PlaylistPrefix CollectionPrefix w readDir uid treeData g = (Returns children, treeData', g') →
  (treeData' !! uid = Some children ∨ children = [] ∧ treeData' = treeData)
  ∧ (children ≠ [] →
     ∀ w' readDir' g'',
       windows.loadChildren Prefix PlaylistPrefix CollectionPrefix w' readDir' uid treeData' g'' = (Returns children, treeData', g'')).
Proof.
  intros Hcall.
  assert (treeData' !! uid = Some children ∨ children = [] ∧ treeData' = treeData)
    as Hstored.
  { revert Hcall. unfold windows.loadChildren.
    destruct (treeData !! uid) as [cached|] eqn:Hcached.
    { intros [= <- <- <-]. by left. }
    destruct (String.eqb uid ""); [intros [= <- <- <-]; by right|].
    destruct (strings.HasPrefix uid Prefix && IsAvailable w).
    - destruct (String.eqb uid Prefix);
        [intros [= <- <- <-]; left; apply lookup_insert_eq|].
      destruct (String.eqb uid PlaylistPrefix).
      + destruct (GetSortedPlaylistNames w g) as [[names|] g1]; [|done].
        intros [= <- <- <-]. left. apply lookup_insert_eq.
      + intros [= <- <- <-]. left. apply lookup_insert_eq.
    - destruct (readDir uid) as [entries|]; [|intros [= <- <- <-]; by right].
      intros [= <- <- <-]. left. apply lookup_insert_eq. }
  split; [done|].
  intros Hne w' readDir' g''. destruct Hstored as [Hstored|[? _]]; [|done].
  unfold windows.loadChildren. by rewrite Hstored.
Qed.

(** X27: for the playlist node, with a collection that parses, the
    children are the playlist names in ascending order, those that start
    with ["_"] left out, each behind the prefix and a ["/"]; they are
    stored for the node, and the loader has parsed once. *)
Theorem loadChildren_playlists w readDir treeData (col : TraktorCollection.t) :
  treeData !! PlaylistPrefix = None →
  strings.HasPrefix PlaylistPrefix Prefix = true →
  PlaylistPrefix ≠ Prefix →
  ParseCollection w = (Some col, None) →
  ∃ names,
    fst (GetSortedPlaylistNames w initial) = Returns names
    ∧ windows.loadChildren Prefix PlaylistPrefix CollectionPrefix w readDir PlaylistPrefix treeData initial
      = (Returns
           (map (λ name, PlaylistPrefix +:+ "/" +:+ name)
              (List.filter (λ name, negb (strings.HasPrefix name "_")) names)),
         <[PlaylistPrefix :=
             map (λ name, PlaylistPrefix +:+ "/" +:+ name)
               (List.filter (λ name, negb (strings.HasPrefix name "_")) names)]>
           treeData,
         cached col 1).
Proof.
  intros Hfresh Hprefix Hne Hcol.
  assert (PlaylistPrefix ≠ "") as Hnonempty.
  { intros ->. destruct Prefix; [done|discriminate]. }
  assert (IsAvailable w = true) as Havailable.
  { unfold IsAvailable. unfold ParseCollection in Hcol.
    by destruct (String.eqb (collectionLocation w) ""). }
  assert (GetSortedPlaylistNames w initial
          = (Returns (merge_sort String.le
                        (map Playlist.Name (TraktorCollection.Playlists col))),
             cached col 1)) as Hnames.
  { unfold GetSortedPlaylistNames, GetPlaylists, loadOnce. cbn. by rewrite Hcol. }
  eexists. split; [by rewrite Hnames|].
  unfold windows.loadChildren. rewrite Hfresh, Hprefix, Havailable, Hnames.
  apply String.eqb_neq in Hnonempty, Hne. rewrite Hnonempty, Hne, String.eqb_refl.
  cbn [andb]. unfold windows.playlistChildren.
  by rewrite playlistChildren_filter.
Qed.

(** X28: for the playlist node, with a collection file that is there
    and does not parse, [loadChildren] panics: the test of
    [traktor.IsAvailable] before the call of [GetSortedPlaylistNames]
    does not prevent the nil dereference. Nothing is stored for the
    node. *)
Theorem loadChildren_panics w readDir treeData (e : error) :
  treeData !! PlaylistPrefix = None →
  strings.HasPrefix PlaylistPrefix Prefix = true →
  PlaylistPrefix ≠ Prefix →
  IsAvailable w = true →
  ParseCollection w = (None, Some e) →
  windows.loadChildren Prefix PlaylistPrefix CollectionPrefix w readDir PlaylistPrefix treeData initial
  = (NilDereference, treeData, {| tc := None; tcLoaded := true; parses := 1 |}).
Proof.
  intros Hfresh Hprefix Hne Havailable Hfail.
  assert (PlaylistPrefix ≠ "") as Hnonempty.
  { intros ->. destruct Prefix; [done|discriminate]. }
  unfold windows.loadChildren. rewrite Hfresh, Hprefix, Havailable.
  apply String.eqb_neq in Hnonempty, Hne. rewrite Hnonempty, Hne, String.eqb_refl.
  cbn [andb]. unfold GetSortedPlaylistNames, GetPlaylists, loadOnce. cbn.
  by rewrite Hfail.
Qed.

(** X29: for a node that is a directory (not below the Traktor prefix,
    or without a collection), the children are the paths of its
    subdirectories whose names do not start with ["."], joined to the
    path of the node, in ascending order of the names; files and hidden
    directories are left out. A directory that cannot be read gives the
    empty list and nothing is stored, so it is read again next time. *)
Theorem loadChildren_directories w readDir (uid : string) treeData g :
  treeData !! uid = None →
  uid ≠ "" →
  strings.HasPrefix uid Prefix = false ∨ IsAvailable w = false →
  (readDir uid = None →
   windows.loadChildren Prefix PlaylistPrefix CollectionPrefix w readDir uid treeData g = (Returns [], treeData, g))
  ∧ (∀ entries, readDir uid = Some entries →
       ∃ dirNames,
         windows.loadChildren Prefix PlaylistPrefix CollectionPrefix w readDir uid treeData g
         = (Returns (map (λ name, filepath.Join [uid; name]) dirNames),
            <[uid := map (λ name, filepath.Join [uid; name]) dirNames]> treeData, g)
         ∧ StronglySorted String.le dirNames
         ∧ dirNames
           ≡ₚ map windows.DirEntry.Name
                (List.filter
                   (λ entry, windows.DirEntry.IsDir entry
                             && negb (strings.HasPrefix (windows.DirEntry.Name entry) "."))
                   entries)).
Proof.
  intros Hfresh Hne Hbranch.
  assert (strings.HasPrefix uid Prefix && IsAvailable w = false) as Hcond.
  { destruct Hbranch as [-> | ->]; [done|apply andb_false_r]. }
  apply String.eqb_neq in Hne.
  unfold windows.loadChildren. rewrite Hfresh, Hne, Hcond. split.
  - by intros ->.
  - intros entries ->.
    exists (merge_sort String.le (windows.visibleDirNames entries)).
    unfold windows.childPaths. rewrite map_loop. cbn [app].
    split; [done|]. split; [apply StronglySorted_merge_sort; apply _|].
    rewrite merge_sort_Permutation. unfold windows.visibleDirNames.
    by rewrite (filter_map_loop _ windows.DirEntry.Name).
Qed.

End tree_facts.

Lemma loadChildren_stored_is_final_witness :
  let readDir := λ path : string,
    if String.eqb path "/music"
    then Some [windows.DirEntry.mk "b" true; windows.DirEntry.mk "a" true]
    else None in
  windows.loadChildren "traktor://" "traktor://playlists" "traktor://collection"
    sampleWorld (λ _, None) "/music" {[ "/music" := ["/music/a"; "/music/b"] ]} initial
  = (Returns ["/music/a"; "/music/b"], {[ "/music" := ["/music/a"; "/music/b"] ]},
     initial).
Proof.
  intros readDir.
  assert (windows.loadChildren "traktor://" "traktor://playlists" "traktor://collection"
            emptyWorld readDir "/music" ∅ initial
          = (Returns ["/music/a"; "/music/b"],
             {[ "/music" := ["/music/a"; "/music/b"] ]}, initial)) as Hfirst
    by reflexivity.
  apply (proj2 (loadChildren_stored_is_final _ _ _ _ _ _ _ _ _ _ _ Hfirst)).
  discriminate.
Defined.

Lemma loadChildren_playlists_witness :
  fst (fst (windows.loadChildren "traktor://" "traktor://playlists" "traktor://collection"
              sampleWorld (λ _, None) "traktor://playlists" ∅ initial))
  = Returns ["traktor://playlists/Friday"; "traktor://playlists/Sets"].
Proof.
  destruct (loadChildren_playlists "traktor://" "traktor://playlists"
              "traktor://collection" sampleWorld (λ _, None) ∅
              (buildCollection sampleNML))
    as (names & Hnames & ->);
    [apply lookup_empty|reflexivity|discriminate|reflexivity|].
  injection Hnames as <-. reflexivity.
Defined.

Lemma loadChildren_panics_witness :
  let broken :=
    {| UserHomeDir := Some "/Users/dj"; Stat := λ _, true;
       Open := λ _, Some "not xml"; Decode := λ _, None |} in
  fst (fst (windows.loadChildren "traktor://" "traktor://playlists" "traktor://collection"
              broken (λ _, None) "traktor://playlists" ∅ initial))
  = NilDereference.
Proof.
  intros broken.
  rewrite (loadChildren_panics "traktor://" "traktor://playlists" "traktor://collection"
             broken (λ _, None) ∅ DecodeError);
    [reflexivity|apply lookup_empty|reflexivity|discriminate|reflexivity|reflexivity].
Defined.

Lemma loadChildren_directories_witness :
  let readDir := λ path : string,
    if String.eqb path "/music"
    then Some [ windows.DirEntry.mk "b" true; windows.DirEntry.mk ".git" true;
                windows.DirEntry.mk "x.mp3" false; windows.DirEntry.mk "a" true ]
    else None in
  windows.loadChildren "traktor://" "traktor://playlists" "traktor://collection"
    sampleWorld readDir "/gone" ∅ initial
  = (Returns [], ∅, initial)
  ∧ ∃ dirNames,
      fst (fst (windows.loadChildren "traktor://" "traktor://playlists"
                  "traktor://collection" sampleWorld readDir "/music" ∅ initial))
      = Returns (map (λ name, filepath.Join ["/music"; name]) dirNames)
      ∧ StronglySorted String.le dirNames.
Proof.
  intros readDir. split.
  - apply (loadChildren_directories "traktor://" "traktor://playlists"
             "traktor://collection" sampleWorld readDir "/gone" ∅ initial);
      [apply lookup_empty|discriminate|by left|reflexivity].
  - destruct (loadChildren_directories "traktor://" "traktor://playlists"
                "traktor://collection" sampleWorld readDir "/music" ∅ initial)
      as (_ & Hread); [apply lookup_empty|discriminate|by left|].
    destruct (Hread _ eq_refl) as (dirNames & -> & Hsorted & _).
    by exists dirNames.
Defined.
